(** * Experiment 6: the hand-written PageRank solver [manual_pagerank]

    A shallow embedding of [src/Experiment_6/experiment_6.py] and the proofs
    of its numerical contract.

    Conventions of the embedding:
    - numpy's float64 values are idealised as exact canonical rationals
      ([Qc]); every statement below is about exact arithmetic, except
      where a definition or lemma is marked binary64: the matrix
      construction is modelled a second time on IEEE binary64 values to
      show where rounding departs from the exact model;
    - a numpy vector is a [list Qc], an N x N array a list of rows;
    - Python dicts ([node_idx], the returned mapping) are [gmap]s;
    - a networkx [DiGraph] is an insertion-ordered adjacency dict, modelled
      as an association list from a node to the list of its successors;
    - the interpreter state a call can touch is a [World]: the graph object
      the caller passes and the standard output;
    - exceptions are values of [PyError]. *)

From Stdlib Require Import QArith Qcanon Floats.
From stdpp Require Import base numbers list sorting gmap strings.

Local Open Scope Qc_scope.

(** ** Node identifiers and their order *)

Abbreviation node := string (only parsing).

(** Python compares [str] values lexicographically by code point. *)
Definition str_le (s1 s2 : string) : Prop := String.leb s1 s2 = true.

#[global] Instance str_le_dec : RelDecision str_le.
Proof. intros s1 s2. unfold str_le. apply _. Defined.

(** [sorted(...)] on strings. The order is total and antisymmetric, so the
    sorted list is unique and any sorting algorithm yields the list Python's
    [sorted] does. *)
Definition sorted (l : list node) : list node := merge_sort str_le l.

(** ** networkx.DiGraph *)

(** [G._succ]: node -> successors, both in insertion order. *)
Definition DiGraph := list (node * list node).

Definition has_node (g : DiGraph) (n : node) : bool :=
  bool_decide (n ∈ g.*1).

Definition add_node (g : DiGraph) (n : node) : DiGraph :=
  if has_node g n then g else g ++ [(n, [])].

Definition add_succ (u v : node) (e : node * list node) : node * list node :=
  if decide (e.1 = u)
  then (e.1, if bool_decide (v ∈ e.2) then e.2 else e.2 ++ [v])
  else e.

Definition add_edge (g : DiGraph) (uv : node * node) : DiGraph :=
  add_succ uv.1 uv.2 <$> add_node (add_node g uv.1) uv.2.

Definition add_nodes_from (g : DiGraph) (ns : list node) : DiGraph :=
  foldl add_node g ns.

Definition add_edges_from (g : DiGraph) (es : list (node * node)) : DiGraph :=
  foldl add_edge g es.

(** [graph.nodes()] *)
Definition nodes_of (g : DiGraph) : list node := g.*1.

(** [graph.neighbors(u)]: the successors of [u]; [None] when [u] is not a
    node of the graph (networkx raises). *)
Fixpoint neighbors_of (g : DiGraph) (u : node) : option (list node) :=
  match g with
  | [] => None
  | e :: g' => if decide (e.1 = u) then Some e.2 else neighbors_of g' u
  end.

(** The invariant every networkx graph satisfies: node keys are distinct,
    successor keys are distinct, and every successor is itself a node. *)
Definition graph_wf (g : DiGraph) : Prop :=
  NoDup (nodes_of g) ∧
  Forall (λ e, NoDup e.2 ∧ Forall (λ v, v ∈ nodes_of g) e.2) g.

#[global] Instance graph_wf_dec g : Decision (graph_wf g).
Proof. unfold graph_wf. apply _. Defined.

(** ** Interpreter state, exceptions, and the monad of a call *)

Inductive PyError : Set :=
  | ZeroDivisionError
  | KeyError
  | IndexError
  | NetworkXError.

(** One line written to standard output:
    [print(f"Converged at iteration {i}")]. *)
Inductive Output : Set :=
  | Converged_at_iteration (i : nat).

Record World := mkWorld {
  graph_obj : DiGraph;
  stdout : list Output
}.

Definition Py (A : Type) : Type := World → (PyError + A) * World.

Definition ret {A} (a : A) : Py A := λ w, (inr a, w).

Definition raise {A} (e : PyError) : Py A := λ w, (inl e, w).

Definition bind {A B} (c : Py A) (k : A → Py B) : Py B :=
  λ w, match c w with
       | (inr a, w') => k a w'
       | (inl e, w') => (inl e, w')
       end.

Notation "'let*' x := c 'in' k" := (bind c (λ x, k))
  (at level 10, x name, c at level 100, k at level 200).

Definition print (o : Output) : Py unit :=
  λ w, (inr tt, mkWorld (graph_obj w) (stdout w ++ [o])).

Definition graph_nodes : Py (list node) :=
  λ w, (inr (nodes_of (graph_obj w)), w).

Definition graph_neighbors (u : node) : Py (list node) :=
  λ w, match neighbors_of (graph_obj w) u with
       | Some ns => (inr ns, w)
       | None => (inl NetworkXError, w)
       end.

(** [for x in xs: s = body(x, s)] *)
Fixpoint for_each {A S} (xs : list A) (body : A → S → Py S) (s : S) : Py S :=
  match xs with
  | [] => ret s
  | x :: xs' => let* s' := body x s in for_each xs' body s'
  end.

(** ** numpy vectors and matrices over exact rationals *)

Abbreviation vec := (list Qc) (only parsing).
Abbreviation matrix := (list (list Qc)) (only parsing).

Definition Qc_of_nat (n : nat) : Qc := Qc_of_Z (Z.of_nat n).

Definition Qcltb (x y : Qc) : bool :=
  match x ?= y with Lt => true | _ => false end.

Definition Qcabs (x : Qc) : Qc := if Qcltb x 0 then - x else x.

Definition vsum (v : vec) : Qc := foldr Qcplus 0 v.

(** [np.zeros((n, m))] *)
Definition zeros (n m : nat) : matrix := replicate n (replicate m 0).

(** [np.ones(n)] *)
Definition ones (n : nat) : vec := replicate n 1.

(** [M[i, j] = x]; numpy raises [IndexError] outside the array. *)
Definition setitem2 (M : matrix) (i j : nat) (x : Qc) : Py matrix :=
  match M !! i with
  | Some row =>
      if decide (j < length row)%nat
      then ret (<[i := <[j := x]> row]> M)
      else raise IndexError
  | None => raise IndexError
  end.

(** [d[k]] on a dict *)
Definition getitem {V} (m : gmap node V) (k : node) : Py V :=
  match m !! k with
  | Some x => ret x
  | None => raise KeyError
  end.

(** [l[i]] on a list or vector *)
Definition getindex {A} (l : list A) (i : nat) : Py A :=
  match l !! i with
  | Some x => ret x
  | None => raise IndexError
  end.

(** [x / n] for a Python float [x] and int [n] *)
Definition py_div (x : Qc) (n : nat) : Py Qc :=
  if decide (n = 0%nat) then raise ZeroDivisionError else ret (x / Qc_of_nat n).

(** [v / n] for a numpy vector [v]: elementwise, never raises *)
Definition vdiv (v : vec) (n : nat) : vec := (λ x, x / Qc_of_nat n) <$> v.

Definition dot (r v : vec) : Qc := vsum (zip_with Qcmult r v).

(** [M @ v] *)
Definition matvec (M : matrix) (v : vec) : vec := (λ row, dot row v) <$> M.

(** [d * M] *)
Definition mscale (d : Qc) (M : matrix) : matrix :=
  (λ row : list Qc, Qcmult d <$> row) <$> M.

(** [c + v] with the scalar broadcast *)
Definition vshift (c : Qc) (v : vec) : vec := Qcplus c <$> v.

(** [a - b] *)
Definition vsub (a b : vec) : vec := zip_with Qcminus a b.

(** [np.linalg.norm(x, 1)] *)
Definition norm1 (x : vec) : Qc := vsum (Qcabs <$> x).

(** ** manual_pagerank *)

(** [{node: i for i, node in enumerate(nodes)}] *)
Definition make_node_idx (nodes : list node) : gmap node nat :=
  foldl (λ m p, <[p.2 := p.1]> m) ∅ (zip (seq 0 (length nodes)) nodes).

(** Lines 61-62 and 64-65: [for v in targets: M[node_idx[v], node_idx[u]] =
    1.0 / n]; the right-hand side is evaluated before the subscripts. *)
Definition fill_column (node_idx : gmap node nat) (u : node)
    (targets : list node) (n : nat) (M : matrix) : Py matrix :=
  for_each targets (λ v M,
    let* x := py_div 1 n in
    let* i := getitem node_idx v in
    let* j := getitem node_idx u in
    setitem2 M i j x) M.

(** Lines 54-65: the transition matrix. *)
Definition build_matrix (nodes : list node) : Py matrix :=
  let N := length nodes in
  let M := zeros N N in
  let node_idx := make_node_idx nodes in
  for_each nodes (λ u M,
    let* neighbors := graph_neighbors u in
    if decide (length neighbors = 0%nat)
    then
      fill_column node_idx u nodes N M
    else
      fill_column node_idx u neighbors (length neighbors) M) M.

(** Line 75: [v_next = (1 - d) / N + d * M @ v]. *)
Definition update (N : nat) (d : Qc) (M : matrix) (v : vec) : Py vec :=
  let* c := py_div (1 - d) N in
  ret (vshift c (matvec (mscale d M) v)).

(** Lines 74-79: the loop over [range(iterations)], with its [break]. *)
Fixpoint power_iteration (N : nat) (d : Qc) (M : matrix) (tol : Qc)
    (range : list nat) (v : vec) : Py vec :=
  match range with
  | [] => ret v
  | i :: range' =>
      let* v_next := update N d M v in
      if Qcltb (norm1 (vsub v_next v)) tol
      then
        let* _ := print (Converged_at_iteration i) in
        ret v
      else
        power_iteration N d M tol range' v_next
  end.

(** Line 81: [{nodes[i]: v[i] for i in range(N)}]. *)
Definition make_result (nodes : list node) (v : vec) (N : nat)
    : Py (gmap node Qc) :=
  for_each (seq 0 N) (λ i r,
    let* k := getindex nodes i in
    let* x := getindex v i in
    ret (<[k := x]> r)) ∅.

(** Line 40: [pr = {node: 1.0/N for node in nodes}] (never read again). *)
Definition initial_probabilities (nodes : list node) (N : nat)
    : Py (gmap node Qc) :=
  for_each nodes (λ node pr,
    let* x := py_div 1 N in
    ret (<[node := x]> pr)) ∅.

(** Lines 37-81. *)
Definition manual_pagerank (d : Qc) (iterations : Z) (tol : Qc)
    : Py (gmap node Qc) :=
  let* all_nodes := graph_nodes in
  let nodes := sorted all_nodes in
  let N := length nodes in
  let* pr := initial_probabilities nodes N in
  let* M := build_matrix nodes in
  let v := vdiv (ones N) N in
  let* v := power_iteration N d M tol (seq 0 (Z.to_nat iterations)) v in
  make_result nodes v N.

(** ** The example network of the experiment (lines 24-26) *)

Definition G : DiGraph :=
  add_edges_from (add_nodes_from [] ["A"; "B"; "C"]%string)
    [("A", "B"); ("A", "C"); ("C", "A")]%string.

Definition damping_085 : Qc := Q2Qc (85 # 100).
Definition tol_1e6 : Qc := Q2Qc (1 # 1000000).

Definition world_G : World := mkWorld G [].

(** ** Notions used in the statements *)

(** [is_matrix N f M]: [M] is the N x N array with [M[i, j] = f i j]. *)
Definition is_matrix (N : nat) (f : nat → nat → Qc) (M : list (list Qc)) : Prop :=
  length M = N ∧
  ∀ i, (i < N)%nat → ∃ row, M !! i = Some row ∧ length row = N ∧
    ∀ j, (j < N)%nat → row !! j = Some (f i j).

(** Whether the node at position [i] of [nodes] belongs to [S]. *)
Definition at_in (nodes S : list node) (i : nat) : bool :=
  match nodes !! i with
  | Some v => bool_decide (v ∈ S)
  | None => false
  end.

(** The entry [M[i, j]] the construction is meant to produce: column [j]
    belongs to the node [u] at position [j]; a dangling [u] spreads [1/N]
    over every row, any other [u] puts [1/len(neighbors)] on the rows of its
    successors. *)
Definition transition_entry (g : DiGraph) (nodes : list node) (i j : nat) : Qc :=
  match nodes !! j with
  | Some u =>
      match neighbors_of g u with
      | Some ns =>
          if decide (length ns = 0%nat) then 1 / Qc_of_nat (length nodes)
          else if at_in nodes ns i then 1 / Qc_of_nat (length ns) else 0
      | None => 0
      end
  | None => 0
  end.

#[global] Arguments vsum : simpl never.

(** [v[j]], zero outside the vector. *)
Definition at_ (v : list Qc) (j : nat) : Qc := default 0 (v !! j).

(** The N x N array with entries [f i j]. *)
Definition table (N : nat) (f : nat → nat → Qc) : list (list Qc) :=
  (λ i, f i <$> seq 0 N) <$> seq 0 N.

(** The value line 75 computes when [N] is not zero. *)
Definition next_vector (N : nat) (d : Qc) (M : list (list Qc)) (v : list Qc)
    : list Qc :=
  vshift ((1 - d) / Qc_of_nat N) (matvec (mscale d M) v).

(** The test of line 76 on a vector [v] and its successor. *)
Definition close_enough (N : nat) (d : Qc) (M : list (list Qc)) (tol : Qc)
    (v : list Qc) : bool :=
  Qcltb (norm1 (vsub (next_vector N d M v) v)) tol.

(** [sum(r.values())] *)
Definition dict_sum (r : gmap node Qc) : Qc := vsum (map_to_list r).*2.

(** The node order, the matrix and the iterates of a call on graph [g]. *)
Definition engine_nodes (g : DiGraph) : list node := sorted (nodes_of g).

Definition engine_matrix (g : DiGraph) : list (list Qc) :=
  table (length (engine_nodes g)) (transition_entry g (engine_nodes g)).

Definition initial_vector (N : nat) : list Qc := vdiv (ones N) N.

Definition iterate (g : DiGraph) (d : Qc) (k : nat) : list Qc :=
  Nat.iter k (next_vector (length (engine_nodes g)) d (engine_matrix g))
    (initial_vector (length (engine_nodes g))).

(** The loop's test at iteration [k]: is [v_next = iterate (k+1)] within
    [tol] of [v = iterate k] in L1 distance? *)
Definition converged_at (g : DiGraph) (d tol : Qc) (k : nat) : bool :=
  close_enough (length (engine_nodes g)) d (engine_matrix g) tol (iterate g d k).

(** The dict built from the node order and a vector. *)
Definition ranks_of (g : DiGraph) (v : list Qc) : gmap node Qc :=
  list_to_map (zip (engine_nodes g) v).

(** [M[i, j]], and column [j] of [M]. *)
Definition entry (M : list (list Qc)) (i j : nat) : option Qc :=
  M !! i ≫= λ row, row !! j.

Definition column (M : list (list Qc)) (j : nat) : list Qc :=
  (λ row, at_ row j) <$> M.

(** A computation that leaves the world as it found it. *)
Definition silent {A} (c : Py A) : Prop := ∀ w, (c w).2 = w.

(** A two-page network: A links to B, B links to itself. *)
Definition G2 : DiGraph :=
  add_edges_from [] [("A", "B"); ("B", "B")]%string.

(** The preconditions of the specification's public contract: a call
    violates it on an empty graph, a damping factor outside (0, 1),
    [max_iterations < 1] or [tolerance <= 0]. *)
Definition contract_violated (g : DiGraph) (d : Qc) (iterations : Z) (tol : Qc)
    : Prop :=
  nodes_of g = [] ∨ ¬ (0 < d < 1) ∨ (iterations < 1)%Z ∨ tol ≤ 0.

(** Modelled from the spec: the independent reference PageRank of the
    example network. The experiment obtains it from [networkx.pagerank], an
    external library whose code is not part of the repository; it is
    represented here by what such an implementation approximates, the exact
    stationary distribution of the damped chain for [d = 0.85]:
    A = 37/94, B = C = 57/188. *)
Definition reference_pagerank : gmap node Qc :=
  list_to_map [("A", Q2Qc (37 # 94)); ("B", Q2Qc (57 # 188));
               ("C", Q2Qc (57 # 188))]%string.

(** Both mappings rank [n], within [eps] of each other. *)
Definition close_to (eps : Qc) (r ref : gmap node Qc) (n : node) : bool :=
  match r !! n, ref !! n with
  | Some x, Some y => Qcltb (Qcabs (x - y)) eps
  | _, _ => false
  end.

(** Two graph objects with the same nodes and the same edges, whatever the
    order in which nodes and edges were added. *)
Definition same_graph (g1 g2 : DiGraph) : Prop :=
  nodes_of g1 ≡ₚ nodes_of g2 ∧
  Forall (λ u, default [] (neighbors_of g1 u) ≡ₚ default [] (neighbors_of g2 u))
    (nodes_of g1).

#[global] Instance same_graph_dec g1 g2 : Decision (same_graph g1 g2).
Proof. unfold same_graph. apply _. Defined.



(** The L1 distance between [v_next] and [v] that the loop compares with
    the tolerance at iteration [k]. *)
Definition step_distance (g : DiGraph) (d : Qc) (k : nat) : Qc :=
  norm1 (vsub (iterate g d (S k)) (iterate g d k)).

(** The fraction of the rank of [u] that the matrix passes on to [x]: an
    equal part for every page when [u] is dangling, an equal part for every
    successor of [u] otherwise. *)
Definition share (g : DiGraph) (u x : node) : Qc :=
  match neighbors_of g u with
  | Some ns =>
      if decide (length ns = 0%nat) then 1 / Qc_of_nat (length (nodes_of g))
      else if bool_decide (x ∈ ns) then 1 / Qc_of_nat (length ns) else 0
  | None => 0
  end.

(** What [x] receives when every page holds rank 1. *)
Definition in_weight (g : DiGraph) (x : node) : Qc :=
  vsum ((λ u, share g u x) <$> nodes_of g).

(** A directed ring A -> B -> C -> A, an edgeless graph and a single page. *)
Definition G_ring : DiGraph :=
  add_edges_from [] [("A", "B"); ("B", "C"); ("C", "A")]%string.

Definition G_edgeless : DiGraph :=
  add_nodes_from [] ["A"; "B"; "C"; "D"]%string.

Definition G_single : DiGraph := add_nodes_from [] ["A"]%string.


(** The exact stationary vector of the example network for [d = 0.85], in
    the order A, B, C. *)
Definition stationary_G : list Qc :=
  [Q2Qc (37 # 94); Q2Qc (57 # 188); Q2Qc (57 # 188)].

#[global] Instance PyError_eq_dec : EqDecision PyError.
Proof. solve_decision. Defined.

#[global] Instance Output_eq_dec : EqDecision Output.
Proof. solve_decision. Defined.

#[global] Instance World_eq_dec : EqDecision World.
Proof. solve_decision. Defined.


(** ** The matrix construction in binary64 *)

(** Lines 54-65 once more, on the values numpy stores: IEEE binary64 with
    round-to-nearest, as Rocq's primitive floats compute them. *)

(** [float(n)] for an int below 2^53. *)
Definition b64_of_nat (n : nat) : float :=
  PrimFloat.of_uint63 (Uint63.of_Z (Z.of_nat n)).

(** [x / n] for a Python float [x] and int [n], rounded. *)
Definition py_div_b64 (x : float) (n : nat) : Py float :=
  if decide (n = 0%nat) then raise ZeroDivisionError
  else ret (PrimFloat.div x (b64_of_nat n)).

Definition zeros_b64 (n m : nat) : list (list float) :=
  replicate n (replicate m 0%float).

Definition setitem2_b64 (M : list (list float)) (i j : nat) (x : float)
    : Py (list (list float)) :=
  match M !! i with
  | Some row =>
      if decide (j < length row)%nat
      then ret (<[i := <[j := x]> row]> M)
      else raise IndexError
  | None => raise IndexError
  end.

Definition fill_column_b64 (node_idx : gmap node nat) (u : node)
    (targets : list node) (n : nat) (M : list (list float))
    : Py (list (list float)) :=
  for_each targets (λ v M,
    let* x := py_div_b64 1%float n in
    let* i := getitem node_idx v in
    let* j := getitem node_idx u in
    setitem2_b64 M i j x) M.

Definition build_matrix_b64 (nodes : list node) : Py (list (list float)) :=
  let N := length nodes in
  let M := zeros_b64 N N in
  let node_idx := make_node_idx nodes in
  for_each nodes (λ u M,
    let* neighbors := graph_neighbors u in
    if decide (length neighbors = 0%nat)
    then
      fill_column_b64 node_idx u nodes N M
    else
      fill_column_b64 node_idx u neighbors (length neighbors) M) M.

(** The rational number a finite binary64 value stands for. *)
Definition b64_to_Q (x : float) : option Q :=
  match Prim2SF x with
  | S754_zero _ => Some 0%Q
  | S754_finite s m e =>
      Some (Qred ((if s then -1 else 1) * inject_Z (Z.pos m) * 2 ^ e))%Q
  | _ => None
  end.

(** Column [j] of a binary64 matrix. *)
Definition column_b64 (M : list (list float)) (j : nat) : list float :=
  (λ row, default nan (row !! j)) <$> M.

(** [sum(xs)]: binary64 additions from left to right. *)
Definition sum_b64 (xs : list float) : float :=
  foldl PrimFloat.add 0%float xs.

(** Six pages without links. *)
Definition G6 : DiGraph :=
  add_nodes_from [] ["A"; "B"; "C"; "D"; "E"; "F"]%string.


(** * Proofs *)

(** ** The order on identifiers and [sorted] *)

Lemma ascii_compare_N (a b : Ascii.ascii) :
  Ascii.compare a b = (Ascii.N_of_ascii a ?= Ascii.N_of_ascii b)%N.
Proof. reflexivity. Qed.

Lemma string_compare_refl (s : string) : String.compare s s = Eq.
Proof.
  induction s as [|a s IH]; simpl; [done|].
  rewrite ascii_compare_N, N.compare_refl. done.
Qed.

Lemma string_compare_Lt_trans (s1 s2 s3 : string) :
  String.compare s1 s2 = Lt → String.compare s2 s3 = Lt →
  String.compare s1 s3 = Lt.
Proof.
  revert s2 s3. induction s1 as [|a s1 IH]; intros [|b s2] [|c s3]; simpl; try done.
  rewrite !ascii_compare_N.
  destruct (N.compare_spec (Ascii.N_of_ascii a) (Ascii.N_of_ascii b)) as [Hab|Hab|Hab];
    destruct (N.compare_spec (Ascii.N_of_ascii b) (Ascii.N_of_ascii c)) as [Hbc|Hbc|Hbc];
    try done; intros H12 H23.
  - rewrite Hab, Hbc, N.compare_refl. eauto.
  - rewrite Hab. by apply N.compare_lt_iff in Hbc as ->.
  - rewrite <-Hbc. by apply N.compare_lt_iff in Hab as ->.
  - assert (Ascii.N_of_ascii a < Ascii.N_of_ascii c)%N as Hac by lia.
    by apply N.compare_lt_iff in Hac as ->.
Qed.

#[global] Instance str_le_total : Total str_le.
Proof. intros s1 s2. apply String.leb_total. Qed.

#[global] Instance str_le_antisym : AntiSymm (=) str_le.
Proof. intros s1 s2. apply String.leb_antisym. Qed.

#[global] Instance str_le_trans : Transitive str_le.
Proof.
  intros s1 s2 s3. unfold str_le, String.leb.
  destruct (String.compare s1 s2) eqn:H12; [|
    destruct (String.compare s2 s3) eqn:H23 |]; try done.
  - apply String.compare_eq_iff in H12 as ->. done.
  - apply String.compare_eq_iff in H23 as ->. by rewrite H12.
  - by rewrite (string_compare_Lt_trans _ _ _ H12 H23).
Qed.

Lemma sorted_Permutation (l : list node) : sorted l ≡ₚ l.
Proof. apply merge_sort_Permutation. Qed.


Lemma sorted_length (l : list node) : length (sorted l) = length l.
Proof. by rewrite sorted_Permutation. Qed.

Lemma sorted_NoDup (l : list node) : NoDup l → NoDup (sorted l).
Proof. by rewrite sorted_Permutation. Qed.

Lemma sorted_elem_of (l : list node) (x : node) : x ∈ sorted l ↔ x ∈ l.
Proof. by rewrite sorted_Permutation. Qed.


(** ** Graphs *)

Lemma neighbors_of_elem (g : DiGraph) (u : node) (ns : list node) :
  neighbors_of g u = Some ns → (u, ns) ∈ g.
Proof.
  induction g as [|[n ms] g IH]; simpl; [done|].
  case_decide; simplify_eq/=.
  - intros [= ->]. left.
  - intros ?. right. auto.
Qed.

Lemma neighbors_of_is_Some (g : DiGraph) (u : node) :
  u ∈ nodes_of g → is_Some (neighbors_of g u).
Proof.
  unfold nodes_of. induction g as [|[n ms] g IH]; simpl.
  - by intros ?%elem_of_nil.
  - intros [->|?]%elem_of_cons; case_decide; simplify_eq/=; eauto.
Qed.

Lemma neighbors_of_wf (g : DiGraph) (u : node) (ns : list node) :
  graph_wf g → neighbors_of g u = Some ns →
  NoDup ns ∧ ∀ v, v ∈ ns → v ∈ nodes_of g.
Proof.
  intros [_ Hwf] Hu%neighbors_of_elem.
  rewrite Forall_forall in Hwf. destruct (Hwf _ Hu) as [? Hin].
  split; [done|]. by rewrite Forall_forall in Hin.
Qed.

(** Every graph built through the networkx interface is well formed. *)

Lemma graph_wf_nil : graph_wf [].
Proof. split; [apply NoDup_nil_2|apply Forall_nil_2]. Qed.

Lemma nodes_of_app (g1 g2 : DiGraph) :
  nodes_of (g1 ++ g2) = nodes_of g1 ++ nodes_of g2.
Proof. apply fmap_app. Qed.

Lemma add_node_elem (g : DiGraph) (n : node) : n ∈ nodes_of (add_node g n).
Proof.
  unfold add_node, has_node. case_bool_decide; [done|].
  rewrite nodes_of_app. set_solver.
Qed.

Lemma add_node_mono (g : DiGraph) (n v : node) :
  v ∈ nodes_of g → v ∈ nodes_of (add_node g n).
Proof.
  unfold add_node, has_node. case_bool_decide; [done|].
  rewrite nodes_of_app. set_solver.
Qed.

Lemma add_node_wf (g : DiGraph) (n : node) :
  graph_wf g → graph_wf (add_node g n).
Proof.
  intros [Hnd Hsucc]. unfold add_node, has_node.
  case_bool_decide as Hn; [done|].
  split.
  - rewrite nodes_of_app. apply NoDup_app. split; [done|].
    split; [|apply NoDup_singleton].
    intros x Hx ->%list_elem_of_singleton. done.
  - apply Forall_app. split; [|by repeat constructor].
    eapply Forall_impl; [exact Hsucc|]. intros e [? Hin]. split; [done|].
    eapply Forall_impl; [exact Hin|]. intros v Hv. simpl in *.
    rewrite nodes_of_app. set_solver.
Qed.

Lemma nodes_of_add_succ (g : DiGraph) (u v : node) :
  nodes_of (add_succ u v <$> g) = nodes_of g.
Proof.
  unfold nodes_of. rewrite <-list_fmap_compose. apply list_fmap_ext.
  intros _ e _. simpl. unfold add_succ. by case_decide.
Qed.

Lemma add_edge_wf (g : DiGraph) (uv : node * node) :
  graph_wf g → graph_wf (add_edge g uv).
Proof.
  intros Hwf. unfold add_edge.
  set (g' := add_node (add_node g uv.1) uv.2).
  assert (graph_wf g') as [Hnd Hsucc] by (by do 2 apply add_node_wf).
  assert (uv.2 ∈ nodes_of g') as Hv by apply add_node_elem.
  split; [by rewrite nodes_of_add_succ|].
  rewrite nodes_of_add_succ. apply Forall_fmap.
  eapply Forall_impl; [exact Hsucc|]. intros e [He Hin]. simpl.
  unfold add_succ. case_decide; [|done]. simpl.
  case_bool_decide as Hmem; [done|]. split.
  - apply NoDup_app. split; [done|]. split; [|apply NoDup_singleton].
    intros x Hx ->%list_elem_of_singleton. done.
  - apply Forall_app. split; [done|]. by repeat constructor.
Qed.

Lemma add_nodes_from_wf (g : DiGraph) (ns : list node) :
  graph_wf g → graph_wf (add_nodes_from g ns).
Proof.
  unfold add_nodes_from. revert g.
  induction ns as [|n ns IH]; intros g Hwf; simpl; [done|].
  by apply IH, add_node_wf.
Qed.

Lemma add_edges_from_wf (g : DiGraph) (es : list (node * node)) :
  graph_wf g → graph_wf (add_edges_from g es).
Proof.
  unfold add_edges_from. revert g.
  induction es as [|e es IH]; intros g Hwf; simpl; [done|].
  by apply IH, add_edge_wf.
Qed.

(** ** Matrices as tables of a function *)

Lemma is_matrix_zeros (N : nat) : is_matrix N (λ _ _, 0) (zeros N N).
Proof.
  unfold zeros. split; [by rewrite length_replicate|].
  intros i Hi. exists (replicate N 0). split; [by apply lookup_replicate_2|].
  split; [by rewrite length_replicate|].
  intros j Hj. by apply lookup_replicate_2.
Qed.

Lemma is_matrix_ext (N : nat) (f g : nat → nat → Qc) (M : list (list Qc)) :
  (∀ i j, (i < N)%nat → (j < N)%nat → f i j = g i j) →
  is_matrix N f M → is_matrix N g M.
Proof.
  intros Hfg [Hlen HM]. split; [done|].
  intros i Hi. destruct (HM i Hi) as (row & ? & ? & Hrow).
  exists row. repeat split; [done..|].
  intros j Hj. rewrite <-Hfg by done. auto.
Qed.

Lemma is_matrix_eq (N : nat) (f : nat → nat → Qc) (M1 M2 : list (list Qc)) :
  is_matrix N f M1 → is_matrix N f M2 → M1 = M2.
Proof.
  intros [Hl1 H1] [Hl2 H2]. apply list_eq. intros i.
  destruct (decide (i < N)%nat) as [Hi|Hi].
  - destruct (H1 i Hi) as (r1 & -> & Hr1 & Hf1).
    destruct (H2 i Hi) as (r2 & -> & Hr2 & Hf2).
    f_equal. apply list_eq. intros j.
    destruct (decide (j < N)%nat) as [Hj|Hj].
    + by rewrite Hf1, Hf2.
    + rewrite !lookup_ge_None_2; [done|lia..].
  - rewrite !lookup_ge_None_2; [done|lia..].
Qed.

Lemma setitem2_run (N : nat) (f : nat → nat → Qc) (M : list (list Qc))
    (i j : nat) (x : Qc) (w : World) :
  is_matrix N f M → (i < N)%nat → (j < N)%nat →
  ∃ M', setitem2 M i j x w = (inr M', w) ∧
    is_matrix N (λ i' j', if decide (i' = i ∧ j' = j) then x else f i' j') M'.
Proof.
  intros [Hlen HM] Hi Hj. unfold setitem2.
  destruct (HM i Hi) as (row & -> & Hrow & Hf).
  rewrite decide_True by lia.
  eexists; split; [reflexivity|].
  split; [by rewrite length_insert|].
  intros i' Hi'. destruct (decide (i' = i)) as [->|Hne].
  - exists (<[j:=x]> row). rewrite list_lookup_insert_eq by lia.
    split; [done|]. split; [by rewrite length_insert|].
    intros j' Hj'. destruct (decide (j' = j)) as [->|Hnej].
    + rewrite list_lookup_insert_eq by lia. by rewrite decide_True.
    + rewrite list_lookup_insert_ne by done.
      rewrite decide_False by naive_solver. auto.
  - destruct (HM i' Hi') as (row' & ? & ? & Hf').
    exists row'. rewrite list_lookup_insert_ne by done.
    repeat split; [done..|].
    intros j' Hj'. rewrite decide_False by naive_solver. auto.
Qed.

(** ** The index dict *)

Lemma make_node_idx_snoc (l : list node) (x : node) :
  make_node_idx (l ++ [x]) = <[x := length l]> (make_node_idx l).
Proof.
  unfold make_node_idx. rewrite length_app. simpl.
  rewrite seq_app. simpl.
  rewrite zip_with_app by (by rewrite length_seq).
  by rewrite foldl_app.
Qed.

Lemma make_node_idx_lookup (nodes : list node) (u : node) (i : nat) :
  NoDup nodes → make_node_idx nodes !! u = Some i ↔ nodes !! i = Some u.
Proof.
  induction nodes as [|x l IH] using rev_ind; intros Hnd.
  - unfold make_node_idx. simpl. by rewrite lookup_empty.
  - apply NoDup_app in Hnd as (Hl & Hx & _).
    rewrite make_node_idx_snoc.
    destruct (decide (u = x)) as [->|Hne].
    + rewrite lookup_insert_eq. split.
      * intros [= <-]. by rewrite list_lookup_middle.
      * intros Hi. f_equal.
        destruct (decide (i < length l)%nat) as [Hlt|Hge].
        -- rewrite lookup_app_l in Hi by done.
           apply list_elem_of_lookup_2 in Hi.
           destruct (Hx x); [done|set_solver].
        -- apply lookup_lt_Some in Hi. rewrite length_app in Hi. simpl in Hi. lia.
    + rewrite lookup_insert_ne by done. rewrite IH by done. split.
      * intros Hi. by apply lookup_app_l_Some.
      * intros Hi. apply lookup_app_Some in Hi as [Hi|[_ Hi]]; [done|].
        apply list_lookup_singleton_Some in Hi as [_ ?]. congruence.
Qed.

(** ** Filling the matrix *)

Lemma at_in_ext (nodes S1 S2 : list node) (i : nat) :
  (∀ v, v ∈ S1 ↔ v ∈ S2) → at_in nodes S1 i = at_in nodes S2 i.
Proof.
  intros HS. unfold at_in. destruct (nodes !! i); [|done].
  apply bool_decide_ext, HS.
Qed.

Lemma at_in_self (nodes : list node) (i : nat) :
  (i < length nodes)%nat → at_in nodes nodes i = true.
Proof.
  intros Hi. unfold at_in.
  destruct (lookup_lt_is_Some_2 nodes i Hi) as [v Hv]. rewrite Hv.
  apply bool_decide_eq_true. by eapply list_elem_of_lookup_2.
Qed.

Section fill.
Context (nodes : list node) (N : nat).
Hypothesis nodes_NoDup : NoDup nodes.
Hypothesis nodes_length : length nodes = N.

Let node_idx := make_node_idx nodes.

Lemma fill_column_run (u : node) (j : nat) (targets : list node) (n : nat)
    (f : nat → nat → Qc) (M : list (list Qc)) (w : World) :
  nodes !! j = Some u →
  n ≠ 0%nat →
  (∀ v, v ∈ targets → v ∈ nodes) →
  is_matrix N f M →
  ∃ M', fill_column node_idx u targets n M w = (inr M', w) ∧
    is_matrix N
      (λ i j', if bool_decide (j' = j) && at_in nodes targets i
               then 1 / Qc_of_nat n else f i j') M'.
Proof.
  intros Hj Hn. set (x := 1 / Qc_of_nat n). revert f M.
  assert (j < N)%nat as HjN by (rewrite <-nodes_length; by eapply lookup_lt_Some).
  induction targets as [|v vs IH]; intros f M Hsub HM.
  - exists M. split; [done|]. eapply is_matrix_ext; [|done].
    intros i j' _ _. unfold at_in. rewrite andb_comm.
    by destruct (nodes !! i).
  - assert (v ∈ nodes) as Hv by (apply Hsub; left).
    apply list_elem_of_lookup_1 in Hv as [i Hi].
    assert (i < N)%nat as HiN by (rewrite <-nodes_length; by eapply lookup_lt_Some).
    destruct (setitem2_run N f M i j x w HM HiN HjN) as (M1 & Hset & HM1).
    destruct (IH _ M1 (λ v' Hv', Hsub v' (list_elem_of_further _ _ _ Hv')) HM1)
      as (M2 & Hrun & HM2).
    exists M2. split.
    + unfold fill_column in *. simpl. unfold bind at 1, py_div at 1.
      rewrite decide_False by done. unfold ret at 1. fold x.
      unfold bind at 1, bind at 1.
      unfold getitem at 1. subst node_idx.
      rewrite (proj2 (make_node_idx_lookup nodes v i nodes_NoDup) Hi).
      unfold ret at 1. unfold bind at 1, getitem at 1.
      rewrite (proj2 (make_node_idx_lookup nodes u j nodes_NoDup) Hj).
      unfold ret at 1. rewrite Hset. exact Hrun.
    + eapply is_matrix_ext; [|exact HM2].
      intros i' j' Hi' Hj'. simpl.
      destruct (decide (j' = j)) as [->|Hne].
      * rewrite !bool_decide_eq_true_2 by done. simpl.
        unfold at_in.
        destruct (lookup_lt_is_Some_2 nodes i') as [v' Hv']; [lia|].
        rewrite Hv'. destruct (decide (v' ∈ vs)) as [Hin|Hnin].
        -- rewrite !bool_decide_eq_true_2; [done|by right|done].
        -- rewrite (bool_decide_eq_false_2 (v' ∈ vs)) by done.
           destruct (decide (i' = i)) as [->|Hnei].
           ++ rewrite decide_True by done.
              rewrite bool_decide_eq_true_2; [done|]. simplify_eq. left.
           ++ rewrite decide_False by naive_solver.
              rewrite bool_decide_eq_false_2; [done|].
              intros [->|?]%elem_of_cons; [|done].
              apply Hnei. by eapply NoDup_lookup.
      * rewrite !bool_decide_eq_false_2 by done. simpl.
        rewrite decide_False by naive_solver. done.
Qed.
End fill.

Section build.
Context (g : DiGraph) (nodes : list node).
Hypothesis g_wf : graph_wf g.
Hypothesis nodes_NoDup : NoDup nodes.
Hypothesis nodes_graph : ∀ v, v ∈ nodes ↔ v ∈ nodes_of g.

Let N := length nodes.

(** Columns of the nodes in [S] are final, the others still zero. *)
Let partial (S : list node) (i j : nat) : Qc :=
  if at_in nodes S j then transition_entry g nodes i j else 0.

Lemma build_loop_run (us done : list node) (M : list (list Qc)) (w : World) :
  graph_obj w = g →
  (∀ v, v ∈ us → v ∈ nodes) →
  is_matrix N (partial done) M →
  ∃ M',
    for_each us (λ u M,
      let* neighbors := graph_neighbors u in
      if decide (length neighbors = 0%nat)
      then fill_column (make_node_idx nodes) u nodes N M
      else fill_column (make_node_idx nodes) u neighbors
             (length neighbors) M) M w = (inr M', w) ∧
    is_matrix N (partial (us ++ done)) M'.
Proof.
  intros Hw. revert done M.
  induction us as [|u us IH]; intros done M Hsub HM.
  { exists M. by split. }
  assert (u ∈ nodes) as Hu by (apply Hsub; left).
  destruct (neighbors_of_is_Some g u) as [ns Hns]; [by apply nodes_graph|].
  destruct (neighbors_of_wf g u ns g_wf Hns) as [Hnd Hin].
  apply list_elem_of_lookup_1 in Hu as [j Hj].
  assert (j < N)%nat as HjN by (by eapply lookup_lt_Some).
  set (targets := if decide (length ns = 0%nat) then nodes else ns).
  set (n := if decide (length ns = 0%nat) then N else length ns).
  assert (n ≠ 0%nat) as Hn by (subst n; case_decide; lia).
  assert (∀ v, v ∈ targets → v ∈ nodes) as Htg.
  { subst targets. case_decide; [done|]. intros v Hv. by apply nodes_graph, Hin. }
  destruct (fill_column_run nodes N nodes_NoDup eq_refl u j targets n
              (partial done) M w Hj Hn Htg HM) as (M1 & Hfill & HM1).
  assert (is_matrix N (partial (u :: done)) M1) as HM1'.
  { eapply is_matrix_ext; [|exact HM1].
    intros i j' Hi Hj'. simpl. unfold partial.
    destruct (decide (j' = j)) as [->|Hne].
    - rewrite bool_decide_eq_true_2 by done. simpl.
      assert (at_in nodes (u :: done) j = true) as ->.
      { unfold at_in. rewrite Hj. apply bool_decide_eq_true. left. }
      unfold transition_entry. rewrite Hj, Hns.
      subst targets n. case_decide.
      + by rewrite at_in_self.
      + destruct (at_in nodes ns i); [done|].
        by destruct (at_in nodes done j).
    - rewrite bool_decide_eq_false_2 by done. simpl.
      assert (at_in nodes (u :: done) j' = at_in nodes done j') as ->; [|done].
      unfold at_in. destruct (nodes !! j') as [v|] eqn:Hv; [|done].
      apply bool_decide_ext. rewrite elem_of_cons.
      split; [|by right]. intros [->|?]; [|done].
      destruct Hne. by apply (NoDup_lookup nodes j' j u). }
  destruct (IH (u :: done) M1
              (λ v' Hv', Hsub v' (list_elem_of_further _ _ _ Hv')) HM1')
    as (M2 & Hrun & HM2).
  exists M2. split.
  - simpl. unfold bind at 1, bind at 1, graph_neighbors at 1.
    rewrite Hw, Hns. subst targets n.
    case_decide; rewrite Hfill; exact Hrun.
  - eapply is_matrix_ext; [|exact HM2].
    intros i j' _ _. unfold partial.
    erewrite at_in_ext; [done|]. set_solver.
Qed.

Lemma build_matrix_run (w : World) :
  graph_obj w = g →
  ∃ M, build_matrix nodes w = (inr M, w) ∧
    is_matrix N (transition_entry g nodes) M.
Proof.
  intros Hw.
  destruct (build_loop_run nodes [] (zeros N N) w Hw) as (M & Hrun & HM).
  - done.
  - eapply is_matrix_ext; [|apply is_matrix_zeros].
    intros i j _ _. unfold partial, at_in. by destruct (nodes !! j).
  - exists M. split; [exact Hrun|].
    eapply is_matrix_ext; [|exact HM].
    intros i j Hi Hj. unfold partial. rewrite app_nil_r.
    by rewrite at_in_self.
Qed.
End build.

(** ** Sums *)

Lemma Qc_of_nat_S (n : nat) : Qc_of_nat (S n) = 1 + Qc_of_nat n.
Proof.
  unfold Qc_of_nat. rewrite Nat2Z.inj_succ, <-Z.add_1_l.
  by rewrite Z2Qc_inj_add, Z2Qc_inj_1.
Qed.

Lemma Qc_of_nat_pos (n : nat) : n ≠ 0%nat → 0 < Qc_of_nat n.
Proof.
  intros Hn. unfold Qc_of_nat. rewrite <-Z2Qc_inj_0. apply (proj1 (Z2Qc_inj_lt _ _)). lia.
Qed.

Lemma Qc_of_nat_ne_0 (n : nat) : n ≠ 0%nat → Qc_of_nat n ≠ 0.
Proof. intros Hn Heq. apply (Qclt_not_eq _ _ (Qc_of_nat_pos n Hn)). done. Qed.

Lemma Qc_of_nat_inv (n : nat) : n ≠ 0%nat → Qc_of_nat n * (1 / Qc_of_nat n) = 1.
Proof. intros Hn. field. by apply Qc_of_nat_ne_0. Qed.

Lemma Qc_of_nat_0 : Qc_of_nat 0 = 0.
Proof. apply Z2Qc_inj_0. Qed.

Lemma vsum_nil : vsum [] = 0.
Proof. done. Qed.

Lemma vsum_cons (x : Qc) (v : list Qc) : vsum (x :: v) = x + vsum v.
Proof. done. Qed.

Lemma vsum_replicate (n : nat) (c : Qc) : vsum (replicate n c) = Qc_of_nat n * c.
Proof.
  induction n as [|n IH].
  - simpl. rewrite Qc_of_nat_0, vsum_nil. ring.
  - change (replicate (S n) c) with (c :: replicate n c).
    rewrite vsum_cons, IH, Qc_of_nat_S. ring.
Qed.

Lemma vsum_Permutation (v1 v2 : list Qc) : v1 ≡ₚ v2 → vsum v1 = vsum v2.
Proof.
  induction 1 as [|x l1 l2 _ IH|x y l|l1 l2 l3 _ IH1 _ IH2];
    rewrite ?vsum_cons; try congruence.
  ring.
Qed.

Lemma vsum_fmap_ext {A} (F G : A → Qc) (l : list A) :
  (∀ x, x ∈ l → F x = G x) → vsum (F <$> l) = vsum (G <$> l).
Proof.
  intros H. f_equal. apply list_fmap_ext. intros i x Hx. apply H.
  by eapply list_elem_of_lookup_2.
Qed.

Lemma vsum_fmap_plus {A} (F G : A → Qc) (l : list A) :
  vsum ((λ x, F x + G x) <$> l) = vsum (F <$> l) + vsum (G <$> l).
Proof.
  induction l as [|x l IH]; csimpl; rewrite ?vsum_cons, ?vsum_nil, ?Qc_of_nat_0.
  - ring.
  - rewrite IH. ring.
Qed.

Lemma vsum_fmap_mult_l {A} (c : Qc) (F : A → Qc) (l : list A) :
  vsum ((λ x, c * F x) <$> l) = c * vsum (F <$> l).
Proof.
  induction l as [|x l IH]; csimpl; rewrite ?vsum_cons, ?vsum_nil, ?Qc_of_nat_0.
  - ring.
  - rewrite IH. ring.
Qed.

Lemma vsum_fmap_const {A} (c : Qc) (l : list A) :
  vsum ((λ _, c) <$> l) = Qc_of_nat (length l) * c.
Proof.
  induction l as [|x l IH]; csimpl; rewrite ?vsum_cons, ?vsum_nil, ?Qc_of_nat_0.
  - ring.
  - rewrite IH, Qc_of_nat_S. ring.
Qed.

Lemma vsum_exchange {A B} (F : A → B → Qc) (l1 : list A) (l2 : list B) :
  vsum ((λ i, vsum ((λ j, F i j) <$> l2)) <$> l1) =
  vsum ((λ j, vsum ((λ i, F i j) <$> l1)) <$> l2).
Proof.
  induction l1 as [|x l1 IH]; csimpl.
  - symmetry. rewrite (vsum_fmap_const 0), vsum_nil. ring.
  - rewrite vsum_cons, IH.
    rewrite <-(vsum_fmap_plus (λ j, F x j)). done.
Qed.

Lemma vsum_indicator (c : Qc) (P : node → Prop) `{∀ x, Decision (P x)}
    (l : list node) :
  vsum ((λ x, if bool_decide (P x) then c else 0) <$> l) =
  Qc_of_nat (length (filter P l)) * c.
Proof.
  induction l as [|x l IH]; csimpl; rewrite ?vsum_cons, ?vsum_nil, ?Qc_of_nat_0.
  - ring.
  - rewrite IH. rewrite filter_cons. case_bool_decide.
    + rewrite decide_True by done. simpl. rewrite Qc_of_nat_S. ring.
    + rewrite decide_False by done. ring.
Qed.

Lemma vsum_nonneg (v : list Qc) : Forall (λ x, 0 ≤ x) v → 0 ≤ vsum v.
Proof.
  induction 1 as [|x v Hx _ IH]; [done|].
  rewrite vsum_cons. by apply Qcplus_nonneg_nonneg.
Qed.

(** ** Vectors and matrices as tables over [range(N)] *)

Lemma vec_table (v : list Qc) : v = at_ v <$> seq 0 (length v).
Proof.
  apply list_eq. intros i. rewrite list_lookup_fmap.
  destruct (decide (i < length v)%nat) as [Hi|Hi].
  - rewrite lookup_seq_lt by done. simpl. unfold at_.
    by destruct (lookup_lt_is_Some_2 v i Hi) as [x ->].
  - rewrite lookup_seq_ge by lia. by rewrite lookup_ge_None_2 by lia.
Qed.

Lemma fmap_lookup_seq {A B} (F : option A → B) (l : list A) :
  (λ i, F (l !! i)) <$> seq 0 (length l) = (λ x, F (Some x)) <$> l.
Proof.
  apply list_eq. intros i. rewrite !list_lookup_fmap.
  destruct (decide (i < length l)%nat) as [Hi|Hi].
  - rewrite lookup_seq_lt by done. simpl.
    by destruct (lookup_lt_is_Some_2 l i Hi) as [x ->].
  - rewrite lookup_seq_ge by lia. by rewrite lookup_ge_None_2 by lia.
Qed.

Lemma is_matrix_table (N : nat) (f : nat → nat → Qc) : is_matrix N f (table N f).
Proof.
  unfold table. split; [by rewrite length_fmap, length_seq|].
  intros i Hi. exists (f i <$> seq 0 N).
  rewrite list_lookup_fmap, lookup_seq_lt by done.
  split; [done|]. split; [by rewrite length_fmap, length_seq|].
  intros j Hj. by rewrite list_lookup_fmap, lookup_seq_lt by done.
Qed.

Lemma is_matrix_inv (N : nat) (f : nat → nat → Qc) (M : list (list Qc)) :
  is_matrix N f M → M = table N f.
Proof. intros HM. eapply is_matrix_eq; [done|apply is_matrix_table]. Qed.

Lemma dot_table (F : nat → Qc) (v : list Qc) :
  dot (F <$> seq 0 (length v)) v = vsum ((λ j, F j * at_ v j) <$> seq 0 (length v)).
Proof.
  unfold dot. rewrite (vec_table v) at 2.
  by rewrite zip_with_fmap_l, zip_with_fmap_r, zip_with_diag.
Qed.

Lemma matvec_table (N : nat) (f : nat → nat → Qc) (v : list Qc) :
  length v = N →
  matvec (table N f) v =
  (λ i, vsum ((λ j, f i j * at_ v j) <$> seq 0 N)) <$> seq 0 N.
Proof.
  intros <-. unfold matvec, table. rewrite <-list_fmap_compose.
  apply list_fmap_ext. intros _ i _. simpl. apply dot_table.
Qed.

Lemma mscale_table (N : nat) (d : Qc) (f : nat → nat → Qc) :
  mscale d (table N f) = table N (λ i j, d * f i j).
Proof.
  unfold mscale, table. rewrite <-list_fmap_compose.
  apply list_fmap_ext. intros _ i _. simpl. by rewrite <-list_fmap_compose.
Qed.

(** ** The transition matrix is column-stochastic *)

Lemma Qc_inv_of_nat_nonneg (n : nat) : 0 ≤ 1 / Qc_of_nat n.
Proof.
  destruct (decide (n = 0%nat)) as [->|Hn]; [done|].
  unfold Qcdiv. rewrite Qcmult_1_l.
  apply Qclt_le_weak, Qcinv_pos, Qc_of_nat_pos, Hn.
Qed.

Lemma transition_entry_nonneg (g : DiGraph) (nodes : list node) (i j : nat) :
  0 ≤ transition_entry g nodes i j.
Proof.
  unfold transition_entry.
  destruct (nodes !! j); [|done].
  destruct (neighbors_of g _); [|done].
  case_decide; [apply Qc_inv_of_nat_nonneg|].
  destruct (at_in _ _ _); [apply Qc_inv_of_nat_nonneg|done].
Qed.

Lemma transition_column_sum (g : DiGraph) (nodes : list node) (j : nat) :
  graph_wf g → NoDup nodes → (∀ v, v ∈ nodes ↔ v ∈ nodes_of g) →
  (j < length nodes)%nat →
  vsum ((λ i, transition_entry g nodes i j) <$> seq 0 (length nodes)) = 1.
Proof.
  intros Hwf Hnd Hnodes Hj.
  destruct (lookup_lt_is_Some_2 nodes j Hj) as [u Hu].
  destruct (neighbors_of_is_Some g u) as [ns Hns].
  { apply Hnodes. by eapply list_elem_of_lookup_2. }
  destruct (neighbors_of_wf g u ns Hwf Hns) as [Hndns Hin].
  unfold transition_entry. rewrite Hu, Hns. case_decide as Hlen.
  - rewrite vsum_fmap_const, length_seq.
    apply Qc_of_nat_inv. lia.
  - unfold at_in.
    rewrite (fmap_lookup_seq
      (λ o, if match o with Some v => bool_decide (v ∈ ns) | None => false end
            then 1 / Qc_of_nat (length ns) else 0) nodes).
    rewrite (vsum_indicator _ (λ v, v ∈ ns)).
    assert (filter (λ v, v ∈ ns) nodes ≡ₚ ns) as ->.
    { apply NoDup_Permutation; [by apply NoDup_filter|done|].
      intros v. rewrite list_elem_of_filter. split; [by intros [? _]|].
      intros Hv. split; [done|]. by apply Hnodes, Hin. }
    by apply Qc_of_nat_inv.
Qed.

(** ** One power-iteration step, as a function *)

Lemma update_run (N : nat) (d : Qc) (M : list (list Qc)) (v : list Qc) (w : World) :
  N ≠ 0%nat → update N d M v w = (inr (next_vector N d M v), w).
Proof.
  intros HN. unfold update, bind, py_div. by rewrite decide_False by done.
Qed.

Lemma update_raises (d : Qc) (M : list (list Qc)) (v : list Qc) (w : World) :
  update 0 d M v w = (inl ZeroDivisionError, w).
Proof. done. Qed.

Lemma vsum_vshift (c : Qc) (v : list Qc) :
  vsum (vshift c v) = Qc_of_nat (length v) * c + vsum v.
Proof.
  unfold vshift.
  rewrite (vsum_fmap_plus (λ _, c) (λ x, x)), vsum_fmap_const.
  by rewrite list_fmap_id.
Qed.

Section step.
Context (N : nat) (f : nat → nat → Qc) (M : list (list Qc)).
Hypothesis M_table : is_matrix N f M.

Lemma next_vector_length (d : Qc) (v : list Qc) :
  length (next_vector N d M v) = N.
Proof.
  unfold next_vector, vshift, matvec, mscale.
  rewrite !length_fmap. by destruct M_table.
Qed.

Lemma next_vector_table (d : Qc) (v : list Qc) :
  length v = N →
  next_vector N d M v =
  (λ i, (1 - d) / Qc_of_nat N + vsum ((λ j, d * f i j * at_ v j) <$> seq 0 N))
    <$> seq 0 N.
Proof.
  intros Hv. unfold next_vector, vshift.
  rewrite (is_matrix_inv N f M M_table), mscale_table, matvec_table by done.
  by rewrite <-list_fmap_compose.
Qed.

Lemma next_vector_nonneg (d : Qc) (v : list Qc) :
  (∀ i j, 0 ≤ f i j) → 0 ≤ d → d ≤ 1 → length v = N →
  Forall (λ x, 0 ≤ x) v → Forall (λ x, 0 ≤ x) (next_vector N d M v).
Proof.
  intros Hf Hd0 Hd1 Hlen Hv. rewrite next_vector_table by done.
  apply Forall_fmap, Forall_forall. intros i _. simpl.
  apply Qcplus_nonneg_nonneg.
  - apply Qcmult_nonneg_nonneg.
    + by apply Qcle_minus_iff in Hd1.
    + rewrite <-(Qcmult_1_l (/ _)). apply Qc_inv_of_nat_nonneg.
  - apply vsum_nonneg, Forall_fmap, Forall_forall. intros j _. simpl.
    apply Qcmult_nonneg_nonneg; [by apply Qcmult_nonneg_nonneg|].
    unfold at_. destruct (v !! j) as [x|] eqn:Hx; simpl; [|done].
    rewrite Forall_forall in Hv. apply Hv. by eapply list_elem_of_lookup_2.
Qed.

(** Where every column of [M] sums to 1, a step maps total mass [s] to
    [(1 - d) + d * s]. *)
Lemma next_vector_sum (d : Qc) (v : list Qc) :
  (∀ j, (j < N)%nat → vsum ((λ i, f i j) <$> seq 0 N) = 1) →
  N ≠ 0%nat → length v = N →
  vsum (next_vector N d M v) = (1 - d) + d * vsum v.
Proof.
  intros Hcol HN Hlen. unfold next_vector.
  rewrite vsum_vshift.
  rewrite (is_matrix_inv N f M M_table), mscale_table, matvec_table by done.
  rewrite length_fmap, length_seq.
  rewrite (vsum_exchange (λ i j, d * f i j * at_ v j)).
  rewrite (vsum_fmap_ext _ (λ j, d * at_ v j)).
  - rewrite vsum_fmap_mult_l. rewrite <-Hlen at 3. rewrite <-vec_table.
    field. by apply Qc_of_nat_ne_0.
  - intros j Hj%elem_of_seq.
    rewrite (vsum_fmap_ext _ (λ i, (d * at_ v j) * f i j)).
    + rewrite vsum_fmap_mult_l, Hcol by lia. ring.
    + intros i _. ring.
Qed.
End step.

(** ** The iteration loop *)

Lemma world_eta (w : World) : mkWorld (graph_obj w) (stdout w ++ []) = w.
Proof. destruct w. simpl. by rewrite app_nil_r. Qed.

Lemma power_iteration_run (N : nat) (d : Qc) (M : list (list Qc)) (tol : Qc)
    (range : list nat) (v : list Qc) (w : World) :
  N ≠ 0%nat →
  ∃ (k : nat) (out : list Output),
    power_iteration N d M tol range v w =
      (inr (Nat.iter k (next_vector N d M) v),
       mkWorld (graph_obj w) (stdout w ++ out)) ∧
    (∀ k', (k' < k)%nat →
       close_enough N d M tol (Nat.iter k' (next_vector N d M) v) = false) ∧
    ((k = length range ∧ out = []) ∨
     (∃ i, range !! k = Some i ∧ out = [Converged_at_iteration i] ∧
        close_enough N d M tol (Nat.iter k (next_vector N d M) v) = true)).
Proof.
  intros HN. revert v. induction range as [|i range IH]; intros v.
  - exists 0%nat, []. simpl. unfold ret. rewrite world_eta.
    split; [done|]. split; [lia|]. by left.
  - simpl. unfold bind at 1. rewrite update_run by done.
    destruct (Qcltb (norm1 (vsub (next_vector N d M v) v)) tol) eqn:Hc.
    + exists 0%nat, [Converged_at_iteration i]. split; [done|].
      split; [lia|]. right. exists i. by repeat split.
    + destruct (IH (next_vector N d M v)) as (k & out & Hrun & Hbefore & Hend).
      exists (S k), out. rewrite Nat.iter_succ_r. split; [done|]. split.
      * intros [|k'] Hk'; [done|]. rewrite Nat.iter_succ_r. apply Hbefore. lia.
      * destruct Hend as [[-> ->]|(i' & Hi' & -> & Hconv)]; [by left|].
        right. exists i'. by repeat split.
Qed.

Lemma power_iteration_empty_graph (d : Qc) (M : list (list Qc)) (tol : Qc)
    (range : list nat) (v : list Qc) (w : World) :
  power_iteration 0 d M tol range v w =
  match range with
  | [] => (inr v, w)
  | _ :: _ => (inl ZeroDivisionError, w)
  end.
Proof. by destruct range. Qed.

(** ** The returned dict *)

Lemma make_result_loop (nodes : list node) (v : list Qc) (w : World)
    (n a : nat) (r : gmap node Qc) :
  length nodes = length v → (a + n)%nat = length nodes →
  for_each (seq a n) (λ i r,
    let* k := getindex nodes i in
    let* x := getindex v i in
    ret (<[k := x]> r)) r w =
  (inr (foldl (λ r p, <[p.1 := p.2]> r) r (zip (drop a nodes) (drop a v))), w).
Proof.
  intros Hlen. revert a r. induction n as [|n IH]; intros a r Ha.
  - simpl. rewrite drop_ge by lia. done.
  - destruct (lookup_lt_is_Some_2 nodes a) as [k Hk]; [lia|].
    destruct (lookup_lt_is_Some_2 v a) as [x Hx]; [lia|].
    rewrite (drop_S nodes k a Hk), (drop_S v x a Hx).
    simpl. unfold bind at 1, bind at 1, getindex at 1. rewrite Hk.
    unfold ret at 1, bind at 1, getindex at 1. rewrite Hx.
    unfold ret at 1, ret at 1. apply IH. lia.
Qed.

Lemma foldl_insert_list_to_map (l : list (node * Qc)) (r : gmap node Qc) :
  NoDup l.*1 →
  foldl (λ r p, <[p.1 := p.2]> r) r l = list_to_map l ∪ r.
Proof.
  revert r. induction l as [|[k x] l IH]; intros r Hnd; csimpl.
  - by rewrite (left_id_L ∅ (∪)).
  - rewrite fmap_cons in Hnd. apply NoDup_cons in Hnd as [Hk Hnd].
    rewrite IH by done. rewrite <-insert_union_l. symmetry.
    apply insert_union_r. by apply not_elem_of_list_to_map_1.
Qed.

Lemma make_result_run (nodes : list node) (v : list Qc) (N : nat) (w : World) :
  NoDup nodes → length nodes = N → length v = N →
  make_result nodes v N w = (inr (list_to_map (zip nodes v)), w).
Proof.
  intros Hnd Hn Hv. unfold make_result.
  rewrite (make_result_loop nodes v w N 0 ∅) by lia.
  rewrite !drop_0, foldl_insert_list_to_map.
  - by rewrite (right_id_L ∅ (∪)).
  - rewrite fst_zip by lia. done.
Qed.

Lemma dict_sum_zip (nodes : list node) (v : list Qc) :
  NoDup nodes → length nodes = length v →
  dict_sum (list_to_map (zip nodes v)) = vsum v.
Proof.
  intros Hnd Hlen. unfold dict_sum.
  apply vsum_Permutation.
  rewrite map_to_list_to_map by (rewrite fst_zip by lia; done).
  by rewrite snd_zip by lia.
Qed.

Lemma dict_dom_zip (nodes : list node) (v : list Qc) :
  length nodes = length v →
  dom (list_to_map (zip nodes v) : gmap node Qc) = list_to_set nodes.
Proof. intros Hlen. rewrite dom_list_to_map_L. by rewrite fst_zip by lia. Qed.

Lemma dict_lookup_zip (nodes : list node) (v : list Qc) (k : node) (x : Qc) :
  NoDup nodes → length nodes = length v →
  (list_to_map (zip nodes v) : gmap node Qc) !! k = Some x ↔
  ∃ i, nodes !! i = Some k ∧ v !! i = Some x.
Proof.
  intros Hnd Hlen.
  rewrite <-elem_of_list_to_map by (rewrite fst_zip by lia; done).
  rewrite list_elem_of_lookup. setoid_rewrite lookup_zip_with_Some.
  naive_solver.
Qed.

(** ** What a call computes *)

Lemma initial_probabilities_run (nodes : list node) (N : nat) (w : World) :
  N ≠ 0%nat → ∃ pr, initial_probabilities nodes N w = (inr pr, w).
Proof.
  intros HN. unfold initial_probabilities. generalize (∅ : gmap node Qc).
  induction nodes as [|u nodes IH]; intros pr; simpl.
  - by eexists.
  - unfold bind at 1, bind at 1, py_div at 1. rewrite decide_False by done.
    unfold ret at 1, ret at 1. apply IH.
Qed.

Lemma engine_nodes_NoDup (g : DiGraph) : graph_wf g → NoDup (engine_nodes g).
Proof. intros [? _]. by apply sorted_NoDup. Qed.

Lemma engine_nodes_length (g : DiGraph) :
  length (engine_nodes g) = length (nodes_of g).
Proof. apply sorted_length. Qed.

Lemma engine_nodes_nonempty (g : DiGraph) :
  nodes_of g ≠ [] → length (engine_nodes g) ≠ 0%nat.
Proof. rewrite engine_nodes_length. by destruct (nodes_of g). Qed.

Lemma engine_matrix_table (g : DiGraph) :
  is_matrix (length (engine_nodes g)) (transition_entry g (engine_nodes g))
    (engine_matrix g).
Proof. apply is_matrix_table. Qed.

Lemma initial_vector_replicate (N : nat) :
  initial_vector N = replicate N (1 / Qc_of_nat N).
Proof. unfold initial_vector, vdiv, ones. by rewrite fmap_replicate. Qed.

Lemma iterate_S (g : DiGraph) (d : Qc) (k : nat) :
  iterate g d (S k) =
  next_vector (length (engine_nodes g)) d (engine_matrix g) (iterate g d k).
Proof. done. Qed.

Lemma iterate_length (g : DiGraph) (d : Qc) (k : nat) :
  length (iterate g d k) = length (engine_nodes g).
Proof.
  destruct k as [|k].
  - unfold iterate. simpl. rewrite initial_vector_replicate.
    by rewrite length_replicate.
  - rewrite iterate_S. eapply next_vector_length, engine_matrix_table.
Qed.

(** Every iterate has total mass 1. *)
Lemma iterate_sum (g : DiGraph) (d : Qc) (k : nat) :
  graph_wf g → nodes_of g ≠ [] → vsum (iterate g d k) = 1.
Proof.
  intros Hwf Hne. pose proof (engine_nodes_nonempty g Hne) as HN.
  induction k as [|k IH].
  - unfold iterate. simpl. rewrite initial_vector_replicate, vsum_replicate.
    by apply Qc_of_nat_inv.
  - rewrite iterate_S.
    rewrite (next_vector_sum _ _ _ (engine_matrix_table g)).
    + rewrite IH. ring.
    + intros j Hj. apply transition_column_sum;
        [done|by apply engine_nodes_NoDup|intros v; apply sorted_elem_of|done].
    + done.
    + apply iterate_length.
Qed.

(** With a damping factor in [0, 1] every iterate is non-negative. *)
Lemma iterate_nonneg (g : DiGraph) (d : Qc) (k : nat) :
  0 ≤ d → d ≤ 1 → Forall (λ x, 0 ≤ x) (iterate g d k).
Proof.
  intros Hd0 Hd1. induction k as [|k IH].
  - unfold iterate. simpl. rewrite initial_vector_replicate.
    apply Forall_replicate, Qc_inv_of_nat_nonneg.
  - rewrite iterate_S.
    eapply next_vector_nonneg; [apply engine_matrix_table| |done..| |done].
    + intros i j. apply transition_entry_nonneg.
    + apply iterate_length.
Qed.

(** On a non-empty graph a call never raises: it stops at some iterate
    [k <= iterations], returns the dict of that iterate, leaves the graph as
    it was, and prints one line exactly when it stopped on the distance test. *)
Lemma manual_pagerank_run (w : World) (d : Qc) (iterations : Z) (tol : Qc) :
  let g := graph_obj w in
  graph_wf g → nodes_of g ≠ [] →
  ∃ (k : nat) (out : list Output),
    manual_pagerank d iterations tol w =
      (inr (ranks_of g (iterate g d k)), mkWorld g (stdout w ++ out)) ∧
    (∀ k', (k' < k)%nat → converged_at g d tol k' = false) ∧
    ((k = Z.to_nat iterations ∧ out = []) ∨
     ((k < Z.to_nat iterations)%nat ∧ out = [Converged_at_iteration k] ∧
      converged_at g d tol k = true)).
Proof.
  intros g Hwf Hne.
  pose proof (engine_nodes_nonempty g Hne) as HN.
  pose proof (engine_nodes_NoDup g Hwf) as Hnd.
  destruct (build_matrix_run g (engine_nodes g) Hwf Hnd
              (λ v, sorted_elem_of (nodes_of g) v) w eq_refl)
    as (M & HM & HMt).
  apply is_matrix_inv in HMt. fold (engine_matrix g) in HMt. subst M.
  destruct (power_iteration_run (length (engine_nodes g)) d (engine_matrix g)
              tol (seq 0 (Z.to_nat iterations))
              (initial_vector (length (engine_nodes g))) w HN)
    as (k & out & Hrun & Hbefore & Hend).
  exists k, out. split; [|split; [exact Hbefore|]].
  - destruct (initial_probabilities_run (engine_nodes g)
                (length (engine_nodes g)) w HN) as [pr Hpr].
    unfold manual_pagerank, bind, graph_nodes.
    fold g. fold (engine_nodes g). rewrite Hpr, HM.
    fold (initial_vector (length (engine_nodes g))). rewrite Hrun.
    fold (iterate g d k).
    apply make_result_run; [done..|apply iterate_length].
  - rewrite length_seq in Hend.
    destruct Hend as [?|(i & Hi & -> & Hconv)]; [by left|right].
    apply lookup_seq in Hi as [-> ?]. done.
Qed.


(** On an empty graph the first iteration divides by [N = 0]. *)
Lemma manual_pagerank_empty_graph (w : World) (d : Qc) (iterations : Z) (tol : Qc) :
  nodes_of (graph_obj w) = [] →
  manual_pagerank d iterations tol w =
  if decide (0 < iterations)%Z then (inl ZeroDivisionError, w) else (inr ∅, w).
Proof.
  intros Hnil. unfold manual_pagerank, bind, graph_nodes. rewrite Hnil.
  change (sorted []) with (@nil string). simpl.
  rewrite power_iteration_empty_graph.
  case_decide.
  - destruct (Z.to_nat iterations) eqn:Hn; [lia|done].
  - replace (Z.to_nat iterations) with 0%nat by lia. done.
Qed.

(** * The claims *)

Lemma is_matrix_entry (N : nat) (f : nat → nat → Qc) (M : list (list Qc))
    (i j : nat) :
  is_matrix N f M → (i < N)%nat → (j < N)%nat → entry M i j = Some (f i j).
Proof.
  intros [_ HM] Hi Hj. unfold entry.
  destruct (HM i Hi) as (row & -> & _ & Hrow). simpl. auto.
Qed.

Lemma table_column (N : nat) (f : nat → nat → Qc) (j : nat) :
  (j < N)%nat → column (table N f) j = (λ i, f i j) <$> seq 0 N.
Proof.
  intros Hj. unfold column, table. rewrite <-list_fmap_compose.
  apply list_fmap_ext. intros _ i _. simpl. unfold at_.
  by rewrite list_lookup_fmap, lookup_seq_lt by done.
Qed.

(** C4, in exact arithmetic. The matrix built by lines 54-65 is the
    transition matrix of the graph: for the node [u] at position [j], column
    [j] is [1/N] everywhere when [u] has no out-neighbour; otherwise it
    holds [1/d_j] on the row of every out-neighbour of [u] ([d_j] their
    number) and [0] on the other rows. With exact quotients every column
    sums to exactly 1. *)
Theorem build_matrix_column_stochastic (w : World) :
  let g := graph_obj w in
  let nodes := sorted (nodes_of g) in
  let N := length nodes in
  graph_wf g →
  ∃ M, build_matrix nodes w = (inr M, w) ∧
    ∀ j u, nodes !! j = Some u →
      ∃ ns, neighbors_of g u = Some ns ∧
        (∀ i x, nodes !! i = Some x →
           entry M i j =
           Some (if decide (length ns = 0%nat) then 1 / Qc_of_nat N
                 else if decide (x ∈ ns) then 1 / Qc_of_nat (length ns)
                 else 0)) ∧
        vsum (column M j) = 1.
Proof.
  intros g nodes N Hwf.
  pose proof (engine_nodes_NoDup g Hwf) as Hnd.
  assert (∀ v, v ∈ nodes ↔ v ∈ nodes_of g) as Hnodes
    by (intros v; apply sorted_elem_of).
  destruct (build_matrix_run g nodes Hwf Hnd Hnodes w eq_refl) as (M & Hrun & HM).
  exists M. split; [done|]. intros j u Hj.
  assert (j < N)%nat as HjN by (by eapply lookup_lt_Some).
  destruct (neighbors_of_is_Some g u) as [ns Hns].
  { apply Hnodes. by eapply list_elem_of_lookup_2. }
  exists ns. split; [done|]. split.
  - intros i x Hi.
    rewrite (is_matrix_entry N _ M i j HM) by (done || by eapply lookup_lt_Some).
    f_equal. unfold transition_entry, at_in. fold nodes. rewrite Hj, Hns, Hi.
    case_decide; [done|]. by case_bool_decide; [rewrite decide_True|rewrite decide_False].
  - rewrite (is_matrix_inv N _ M HM), table_column by done.
    by apply transition_column_sum.
Qed.

Lemma G_wf : graph_wf G.
Proof. apply add_edges_from_wf, add_nodes_from_wf, graph_wf_nil. Qed.

Lemma build_matrix_column_stochastic_witness :
  graph_wf (graph_obj world_G) ∧
  ∃ M, build_matrix (sorted (nodes_of G)) world_G = (inr M, world_G) ∧
    ∀ j u, sorted (nodes_of G) !! j = Some u →
      ∃ ns, neighbors_of G u = Some ns ∧
        (∀ i x, sorted (nodes_of G) !! i = Some x →
           entry M i j =
           Some (if decide (length ns = 0%nat)
                 then 1 / Qc_of_nat (length (sorted (nodes_of G)))
                 else if decide (x ∈ ns) then 1 / Qc_of_nat (length ns)
                 else 0)) ∧
        vsum (column M j) = 1.
Proof.
  split.
  - apply (bool_decide_unpack _). vm_compute. exact I.
  - apply (build_matrix_column_stochastic world_G).
    apply (bool_decide_unpack _). vm_compute. exact I.
Defined.

(** C4 fails on the values numpy stores. In binary64 the quotients [1/N]
    and [1/d_j] are rounded before they are stored. On the example network
    the column of the dangling page B holds three times the double nearest
    to 1/3, which is 6004799503160661 / 2^54: the entries of that column
    sum to 1 - 2^-54, not to 1. On six pages without links every column
    holds six times the double nearest to 1/6, and even their binary64 sum
    (added from left to right) is 1 - 2^-53 = 0.9999999999999999, which
    compares unequal to 1.0. *)
Lemma build_matrix_b64_column_sum :
  (∃ M, build_matrix_b64 (sorted (nodes_of G)) world_G = (inr M, world_G) ∧
     sorted (nodes_of G) !! 1%nat = Some "B"%string ∧
     neighbors_of G "B" = Some [] ∧
     b64_to_Q <$> column_b64 M 1 =
       replicate 3 (Some (6004799503160661 # 18014398509481984)%Q) ∧
     (3 * (6004799503160661 # 18014398509481984) == 1 - (1 # 18014398509481984))%Q ∧
     ¬ (3 * (6004799503160661 # 18014398509481984) == 1)%Q) ∧
  (∃ M, build_matrix_b64 (sorted (nodes_of G6)) (mkWorld G6 []) =
          (inr M, mkWorld G6 []) ∧
     ∀ j, (j < 6)%nat →
       b64_to_Q <$> column_b64 M j =
         replicate 6 (Some (6004799503160661 # 36028797018963968)%Q) ∧
       b64_to_Q (sum_b64 (column_b64 M j)) =
         Some (9007199254740991 # 9007199254740992)%Q ∧
       PrimFloat.eqb (sum_b64 (column_b64 M j)) 1%float = false).
Proof.
  split.
  - eexists. split; [vm_compute; reflexivity|].
    repeat split; try (vm_compute; reflexivity).
    vm_compute. discriminate.
  - eexists. split; [vm_compute; reflexivity|].
    intros j Hj.
    do 6 (destruct j as [|j]; [repeat split; vm_compute; reflexivity|]).
    lia.
Qed.

Lemma ranks_of_sum (g : DiGraph) (d : Qc) (k : nat) :
  graph_wf g → nodes_of g ≠ [] → dict_sum (ranks_of g (iterate g d k)) = 1.
Proof.
  intros Hwf Hne. unfold ranks_of. rewrite dict_sum_zip.
  - by apply iterate_sum.
  - by apply engine_nodes_NoDup.
  - by rewrite iterate_length.
Qed.

(** C10. In exact arithmetic one update [v_next = (1 - d)/N + d * M @ v]
    with the engine's matrix keeps the total mass: if the entries of [v] sum
    to 1 (and 0 < d < 1) the entries of [v_next] sum to exactly 1, for every
    graph, dangling nodes or not; hence every iterate of the loop sums to 1. *)
Theorem update_preserves_total_mass (w : World) (d : Qc) (v : list Qc) :
  let g := graph_obj w in
  let nodes := sorted (nodes_of g) in
  let N := length nodes in
  graph_wf g → length v = N → vsum v = 1 → 0 < d < 1 →
  (∃ M v_next,
     build_matrix nodes w = (inr M, w) ∧
     update N d M v w = (inr v_next, w) ∧
     vsum v_next = 1) ∧
  ∀ k, vsum (iterate g d k) = 1.
Proof.
  intros g nodes N Hwf Hlen Hsum _.
  assert (N ≠ 0%nat) as HN.
  { intros HN. rewrite HN in Hlen. by destruct v. }
  assert (nodes_of g ≠ []) as Hne.
  { intros Hnil. apply HN. subst N nodes. by rewrite sorted_length, Hnil. }
  pose proof (engine_nodes_NoDup g Hwf) as Hnd.
  assert (∀ v, v ∈ nodes ↔ v ∈ nodes_of g) as Hnodes
    by (intros x; apply sorted_elem_of).
  destruct (build_matrix_run g nodes Hwf Hnd Hnodes w eq_refl) as (M & Hrun & HM).
  split; [|intros k; by apply iterate_sum].
  exists M, (next_vector N d M v). split; [done|].
  split; [by apply update_run|].
  rewrite (next_vector_sum N _ M HM);
    [|intros j Hj; by apply transition_column_sum|done..].
  rewrite Hsum. ring.
Qed.

Lemma update_preserves_total_mass_witness :
  graph_wf (graph_obj world_G) ∧
  (∃ M v_next,
     build_matrix (sorted (nodes_of G)) world_G = (inr M, world_G) ∧
     update 3 damping_085 M [Q2Qc (1 # 2); Q2Qc (1 # 2); 0] world_G =
       (inr v_next, world_G) ∧
     vsum v_next = 1) ∧
  ∀ k, vsum (iterate G damping_085 k) = 1.
Proof.
  split.
  - apply (bool_decide_unpack _). vm_compute. exact I.
  - apply (update_preserves_total_mass world_G damping_085
             [Q2Qc (1 # 2); Q2Qc (1 # 2); 0]).
    + apply (bool_decide_unpack _). vm_compute. exact I.
    + reflexivity.
    + apply Qc_is_canon. reflexivity.
    + split; reflexivity.
Defined.

(** C1. On every non-empty graph and for every damping factor in (0, 1) the
    call returns a mapping whose rank values sum to 1 within 1e-6 (in exact
    arithmetic the sum is exactly 1). *)
Theorem manual_pagerank_sums_to_one (w : World) (d : Qc) (iterations : Z)
    (tol : Qc) :
  graph_wf (graph_obj w) → nodes_of (graph_obj w) ≠ [] → 0 < d < 1 →
  ∃ r w', manual_pagerank d iterations tol w = (inr r, w') ∧
    Qcabs (dict_sum r - 1) ≤ tol_1e6.
Proof.
  intros Hwf Hne _.
  destruct (manual_pagerank_run w d iterations tol Hwf Hne)
    as (k & out & Hrun & _).
  eexists _, _. split; [exact Hrun|].
  rewrite ranks_of_sum by done.
  replace (1 - 1) with 0 by ring. done.
Qed.

Lemma manual_pagerank_sums_to_one_witness :
  graph_wf (graph_obj world_G) ∧ nodes_of (graph_obj world_G) ≠ [] ∧
  0 < damping_085 < 1 ∧
  ∃ r w', manual_pagerank damping_085 100 tol_1e6 world_G = (inr r, w') ∧
    Qcabs (dict_sum r - 1) ≤ tol_1e6.
Proof.
  assert (graph_wf (graph_obj world_G)) as Hwf
    by (apply (bool_decide_unpack _); vm_compute; exact I).
  assert (nodes_of (graph_obj world_G) ≠ []) as Hne by (vm_compute; discriminate).
  assert (0 < damping_085 < 1) as Hd by (split; reflexivity).
  split; [exact Hwf|]. split; [exact Hne|]. split; [exact Hd|].
  exact (manual_pagerank_sums_to_one world_G damping_085 100 tol_1e6 Hwf Hne Hd).
Defined.

(** ** Effects *)

Lemma silent_ret {A} (a : A) : silent (ret a).
Proof. done. Qed.

Lemma silent_raise {A} (e : PyError) : silent (@raise A e).
Proof. done. Qed.

Lemma silent_bind {A B} (c : Py A) (k : A → Py B) :
  silent c → (∀ a, silent (k a)) → silent (bind c k).
Proof.
  intros Hc Hk w. unfold bind. specialize (Hc w).
  destruct (c w) as [[e|a] w1]; simpl in *; subst w1; [done|]. apply Hk.
Qed.

Lemma silent_for_each {A S} (xs : list A) (body : A → S → Py S) (s : S) :
  (∀ x s, silent (body x s)) → silent (for_each xs body s).
Proof.
  intros Hbody. revert s. induction xs as [|x xs IH]; intros s; simpl.
  - apply silent_ret.
  - apply silent_bind; [apply Hbody|]. intros s'. apply IH.
Qed.

Lemma silent_getitem {V} (m : gmap node V) (k : node) : silent (getitem m k).
Proof. intros w. unfold getitem. by destruct (m !! k). Qed.

Lemma silent_getindex {A} (l : list A) (i : nat) : silent (getindex l i).
Proof. intros w. unfold getindex. by destruct (l !! i). Qed.

Lemma silent_setitem2 (M : list (list Qc)) (i j : nat) (x : Qc) :
  silent (setitem2 M i j x).
Proof. intros w. unfold setitem2. destruct (M !! i); [|done]. by case_decide. Qed.

Lemma silent_py_div (x : Qc) (n : nat) : silent (py_div x n).
Proof. intros w. unfold py_div. by case_decide. Qed.

Lemma silent_graph_nodes : silent graph_nodes.
Proof. done. Qed.

Lemma silent_graph_neighbors (u : node) : silent (graph_neighbors u).
Proof. intros w. unfold graph_neighbors. by destruct (neighbors_of _ _). Qed.

Lemma silent_fill_column (idx : gmap node nat) (u : node) (targets : list node)
    (n : nat) (M : list (list Qc)) :
  silent (fill_column idx u targets n M).
Proof.
  apply silent_for_each. intros v M'.
  apply silent_bind; [apply silent_py_div|]. intros x.
  apply silent_bind; [apply silent_getitem|]. intros i.
  apply silent_bind; [apply silent_getitem|]. intros j.
  apply silent_setitem2.
Qed.

Lemma silent_initial_probabilities (nodes : list node) (N : nat) :
  silent (initial_probabilities nodes N).
Proof.
  apply silent_for_each. intros u pr.
  apply silent_bind; [apply silent_py_div|]. intros x. apply silent_ret.
Qed.

Lemma silent_build_matrix (nodes : list node) : silent (build_matrix nodes).
Proof.
  apply silent_for_each. intros u M.
  apply silent_bind; [apply silent_graph_neighbors|]. intros ns.
  case_decide; apply silent_fill_column.
Qed.

Lemma silent_update (N : nat) (d : Qc) (M : list (list Qc)) (v : list Qc) :
  silent (update N d M v).
Proof.
  apply silent_bind; [apply silent_py_div|]. intros c. apply silent_ret.
Qed.

Lemma silent_make_result (nodes : list node) (v : list Qc) (N : nat) :
  silent (make_result nodes v N).
Proof.
  apply silent_for_each. intros i r.
  apply silent_bind; [apply silent_getindex|]. intros k.
  apply silent_bind; [apply silent_getindex|]. intros x. apply silent_ret.
Qed.

Lemma power_iteration_effects (N : nat) (d : Qc) (M : list (list Qc)) (tol : Qc)
    (range : list nat) (v : list Qc) (w : World) r w' :
  power_iteration N d M tol range v w = (r, w') →
  graph_obj w' = graph_obj w ∧
  (stdout w' = stdout w ∨
   ∃ i, i ∈ range ∧ stdout w' = stdout w ++ [Converged_at_iteration i]).
Proof.
  revert v. induction range as [|i range IH]; intros v; simpl.
  - intros [= <- <-]. split; [done|by left].
  - unfold bind at 1. pose proof (silent_update N d M v w) as Hupd.
    destruct (update N d M v w) as [[e|v_next] w1]; simpl in Hupd; subst w1.
    + intros [= <- <-]. split; [done|by left].
    + destruct (Qcltb _ _).
      * intros [= <- <-]. simpl. split; [done|].
        right. exists i. split; [left|done].
      * intros Hrun. destruct (IH v_next Hrun) as [Hg Hout]. split; [done|].
        destruct Hout as [?|(i' & ? & ?)]; [by left|].
        right. exists i'. split; [by right|done].
Qed.

(** Whatever the graph, a call leaves it as it was and writes at most one
    line. *)
Lemma manual_pagerank_frame (w : World) (d : Qc) (iterations : Z) (tol : Qc) :
  let w' := (manual_pagerank d iterations tol w).2 in
  graph_obj w' = graph_obj w ∧
  (stdout w' = stdout w ∨
   ∃ i : nat, (Z.of_nat i < iterations)%Z ∧
     stdout w' = stdout w ++ [Converged_at_iteration i]).
Proof.
  unfold manual_pagerank, bind, graph_nodes.
  set (nodes := sorted (nodes_of (graph_obj w))).
  pose proof (silent_initial_probabilities nodes (length nodes) w) as Hpr.
  destruct (initial_probabilities nodes (length nodes) w) as [[e|pr] w0];
    simpl in Hpr; subst w0.
  { split; [done|by left]. }
  pose proof (silent_build_matrix nodes w) as HM.
  destruct (build_matrix nodes w) as [[e|M] w1]; simpl in HM; subst w1.
  { split; [done|by left]. }
  set (v0 := vdiv (ones (length nodes)) (length nodes)).
  destruct (power_iteration (length nodes) d M tol
              (seq 0 (Z.to_nat iterations)) v0 w) as [r w2] eqn:Hloop.
  destruct (power_iteration_effects _ _ _ _ _ _ _ _ _ Hloop) as [Hg Hout].
  assert (stdout w2 = stdout w ∨
          ∃ i : nat, (Z.of_nat i < iterations)%Z ∧
            stdout w2 = stdout w ++ [Converged_at_iteration i]) as Hout'.
  { destruct Hout as [?|(i & Hi & ?)]; [by left|].
    right. exists i. apply elem_of_seq in Hi. split; [lia|done]. }
  destruct r as [e|v]; [done|].
  by rewrite (silent_make_result nodes v (length nodes) w2).
Qed.

(** C9, as the code has it. A call never changes the graph it is given. Its
    only observable effect besides the returned value is on standard output:
    it prints nothing, or the single line "Converged at iteration i". On a
    non-empty graph the line is printed for [i] exactly when [i] is the
    iteration at which the loop stopped on the distance test (the first
    iteration within the bound whose test of line 76 succeeds), and nothing
    is printed exactly when no iteration within the bound passes the test. *)
Theorem manual_pagerank_effects (w : World) (d : Qc) (iterations : Z) (tol : Qc) :
  let g := graph_obj w in
  let w' := (manual_pagerank d iterations tol w).2 in
  graph_obj w' = g ∧
  (stdout w' = stdout w ∨
   ∃ i : nat, (Z.of_nat i < iterations)%Z ∧
     stdout w' = stdout w ++ [Converged_at_iteration i]) ∧
  (graph_wf g → nodes_of g ≠ [] →
   (∀ i : nat,
      stdout w' = stdout w ++ [Converged_at_iteration i] ↔
      (i < Z.to_nat iterations)%nat ∧ converged_at g d tol i = true ∧
      ∀ k, (k < i)%nat → converged_at g d tol k = false) ∧
   (stdout w' = stdout w ↔
    ∀ k, (k < Z.to_nat iterations)%nat → converged_at g d tol k = false)).
Proof.
  intros g w'.
  destruct (manual_pagerank_frame w d iterations tol) as [Hg Hout].
  split; [exact Hg|]. split; [exact Hout|].
  intros Hwf Hne.
  destruct (manual_pagerank_run w d iterations tol Hwf Hne)
    as (k0 & out & Hrun & Hbefore & Hend). fold g in Hrun, Hbefore, Hend.
  subst w'. rewrite Hrun. simpl.
  destruct Hend as [[-> ->]|(Hk0 & -> & Hconv)].
  - split.
    + intros i. split.
      * intros Heq. apply (f_equal length) in Heq.
        rewrite !length_app in Heq. simpl in Heq. lia.
      * intros (Hi & Hc & _). rewrite Hbefore in Hc by done. done.
    + split; [done|by rewrite app_nil_r].
  - split.
    + intros i. split.
      * intros Heq%app_inv_head. simplify_eq. done.
      * intros (Hi & Hc & Hfirst).
        destruct (Nat.lt_trichotomy i k0) as [Hlt|[->|Hgt]]; [|done|].
        -- rewrite Hbefore in Hc by done. done.
        -- rewrite Hfirst in Hconv by done. done.
    + split.
      * intros Heq. apply (f_equal length) in Heq.
        rewrite length_app in Heq. simpl in Heq. lia.
      * intros Hnever. rewrite Hnever in Hconv by done. done.
Qed.

Lemma manual_pagerank_effects_witness :
  graph_wf G ∧ nodes_of G ≠ [] ∧
  graph_obj (manual_pagerank damping_085 100 tol_1e6 world_G).2 = G ∧
  (stdout (manual_pagerank damping_085 100 tol_1e6 world_G).2 = stdout world_G ∨
   ∃ i : nat, (Z.of_nat i < 100)%Z ∧
     stdout (manual_pagerank damping_085 100 tol_1e6 world_G).2 = stdout world_G ++ [Converged_at_iteration i]) ∧
  (∀ i : nat,
     stdout (manual_pagerank damping_085 100 tol_1e6 world_G).2 = stdout world_G ++ [Converged_at_iteration i] ↔
     (i < Z.to_nat 100)%nat ∧ converged_at G damping_085 tol_1e6 i = true ∧
     ∀ k, (k < i)%nat → converged_at G damping_085 tol_1e6 k = false) ∧
  (stdout (manual_pagerank damping_085 100 tol_1e6 world_G).2 = stdout world_G ↔
   ∀ k, (k < Z.to_nat 100)%nat → converged_at G damping_085 tol_1e6 k = false).
Proof.
  assert (graph_wf G) as Hwf
    by (apply (bool_decide_unpack _); vm_compute; exact I).
  assert (nodes_of G ≠ []) as Hne by (vm_compute; discriminate).
  split; [exact Hwf|]. split; [exact Hne|].
  destruct (manual_pagerank_effects world_G damping_085 100 tol_1e6)
    as (Hg & Hout & Hline).
  split; [exact Hg|]. split; [exact Hout|]. exact (Hline Hwf Hne).
Defined.

(** Counterexample to C9 as stated: the default call on the example network writes a
    line to standard output. *)
Lemma manual_pagerank_prints :
  stdout world_G = [] ∧
  stdout (manual_pagerank damping_085 100 tol_1e6 world_G).2 =
    [Converged_at_iteration 22].
Proof. split; [done|]. vm_compute. reflexivity. Qed.

(** ** Keys and signs of the returned mapping *)

Lemma ranks_of_dom (g : DiGraph) (d : Qc) (k : nat) :
  dom (ranks_of g (iterate g d k)) = list_to_set (nodes_of g).
Proof.
  unfold ranks_of. rewrite dict_dom_zip by (by rewrite iterate_length).
  apply list_to_set_perm_L, sorted_Permutation.
Qed.

Lemma ranks_of_nonneg (g : DiGraph) (d : Qc) (k : nat) (n : node) (x : Qc) :
  graph_wf g → 0 ≤ d → d ≤ 1 →
  ranks_of g (iterate g d k) !! n = Some x → 0 ≤ x.
Proof.
  intros Hwf Hd0 Hd1 Hx. unfold ranks_of in Hx.
  apply dict_lookup_zip in Hx as (i & _ & Hi);
    [|by apply engine_nodes_NoDup|by rewrite iterate_length].
  pose proof (iterate_nonneg g d k Hd0 Hd1) as Hall.
  rewrite Forall_forall in Hall. apply Hall. by eapply list_elem_of_lookup_2.
Qed.

(** Outside the contract of the specification (a damping factor in (0, 1))
    ranks can be negative: the code accepts [d = 2], and page A of [G2] then
    gets the rank [-1/2]. *)
Lemma manual_pagerank_negative_rank :
  graph_wf G2 ∧ nodes_of G2 ≠ [] ∧
  ∃ r w' x,
    manual_pagerank (Q2Qc 2) 1 tol_1e6 (mkWorld G2 []) = (inr r, w') ∧
    r !! "A"%string = Some x ∧ x = Q2Qc (-1 # 2) ∧ x < 0.
Proof.
  split; [apply (bool_decide_unpack _); by vm_compute|].
  split; [by vm_compute|].
  eexists _, _, _. split; [vm_compute; reflexivity|].
  split; [vm_compute; reflexivity|].
  split; [apply Qc_is_canon|]; by vm_compute.
Qed.

(** C8. On every non-empty graph the returned mapping has exactly the
    graph's nodes as keys, and every rank is non-negative, for every damping
    factor the contract admits (proved for the whole closed interval
    [0, 1]). *)
Theorem manual_pagerank_keys_and_signs (w : World) (d : Qc) (iterations : Z)
    (tol : Qc) :
  graph_wf (graph_obj w) → nodes_of (graph_obj w) ≠ [] → 0 ≤ d ≤ 1 →
  ∃ r w', manual_pagerank d iterations tol w = (inr r, w') ∧
    dom r = list_to_set (nodes_of (graph_obj w)) ∧
    ∀ n x, r !! n = Some x → 0 ≤ x.
Proof.
  intros Hwf Hne [Hd0 Hd1].
  destruct (manual_pagerank_run w d iterations tol Hwf Hne)
    as (k & out & Hrun & _).
  eexists _, _. split; [exact Hrun|]. split; [apply ranks_of_dom|].
  intros n x. by apply ranks_of_nonneg.
Qed.

Lemma manual_pagerank_keys_and_signs_witness :
  graph_wf (graph_obj world_G) ∧ nodes_of (graph_obj world_G) ≠ [] ∧
  0 ≤ damping_085 ≤ 1 ∧
  ∃ r w', manual_pagerank damping_085 100 tol_1e6 world_G = (inr r, w') ∧
    dom r = list_to_set (nodes_of (graph_obj world_G)) ∧
    ∀ n x, r !! n = Some x → 0 ≤ x.
Proof.
  assert (graph_wf (graph_obj world_G)) as Hwf
    by (apply (bool_decide_unpack _); vm_compute; exact I).
  assert (nodes_of (graph_obj world_G) ≠ []) as Hne by (vm_compute; discriminate).
  assert (0 ≤ damping_085 ≤ 1) as Hd by (split; vm_compute; discriminate).
  split; [exact Hwf|]. split; [exact Hne|]. split; [exact Hd|].
  exact (manual_pagerank_keys_and_signs world_G damping_085 100 tol_1e6 Hwf Hne Hd).
Defined.

(** ** Argument validation *)

(** Counterexample to C2 as stated: a call with [d = 2] and [tol = 0] on the example
    network is not rejected; it runs the loop and returns a mapping. *)
Lemma manual_pagerank_accepts_invalid :
  contract_violated G (Q2Qc 2) 1 0 ∧
  ∃ r w', manual_pagerank (Q2Qc 2) 1 0 world_G = (inr r, w') ∧
    r = ranks_of G (iterate G (Q2Qc 2) 1).
Proof.
  split.
  - right. left. intros [_ Hd]. by vm_compute in Hd.
  - eexists _, _. split; vm_compute; reflexivity.
Qed.

(** C2, as the code has it. The engine checks none of its arguments and
    has no [InvalidParameter] error: on a non-empty graph every call returns
    a mapping over all the graph's nodes, whatever the damping factor, the
    iteration bound and the tolerance are. *)
Theorem manual_pagerank_no_validation (w : World) (d : Qc) (iterations : Z)
    (tol : Qc) :
  graph_wf (graph_obj w) → nodes_of (graph_obj w) ≠ [] →
  ∃ r w', manual_pagerank d iterations tol w = (inr r, w') ∧
    dom r = list_to_set (nodes_of (graph_obj w)).
Proof.
  intros Hwf Hne.
  destruct (manual_pagerank_run w d iterations tol Hwf Hne)
    as (k & out & Hrun & _).
  eexists _, _. split; [exact Hrun|apply ranks_of_dom].
Qed.

Lemma manual_pagerank_no_validation_witness :
  graph_wf (graph_obj world_G) ∧ nodes_of (graph_obj world_G) ≠ [] ∧
  contract_violated G (Q2Qc 7) (-3) (Q2Qc (-1)) ∧
  ∃ r w', manual_pagerank (Q2Qc 7) (-3) (Q2Qc (-1)) world_G = (inr r, w') ∧
    dom r = list_to_set (nodes_of (graph_obj world_G)).
Proof.
  assert (graph_wf (graph_obj world_G)) as Hwf
    by (apply (bool_decide_unpack _); vm_compute; exact I).
  assert (nodes_of (graph_obj world_G) ≠ []) as Hne by (vm_compute; discriminate).
  split; [exact Hwf|]. split; [exact Hne|]. split.
  - right. right. left. reflexivity.
  - exact (manual_pagerank_no_validation world_G (Q2Qc 7) (-3) (Q2Qc (-1)) Hwf Hne).
Defined.

(** ** Exhausting the iteration budget *)

(** C6. When none of the [max_iterations] iterations finds the distance
    below the tolerance, the call raises nothing, prints nothing and returns
    the vector computed by the last iteration (for a positive budget that is
    the last [v_next]; for an empty budget the initial vector). *)
Theorem manual_pagerank_budget_exhausted (w : World) (d : Qc) (iterations : Z)
    (tol : Qc) :
  let g := graph_obj w in
  let n := Z.to_nat iterations in
  graph_wf g → nodes_of g ≠ [] →
  (∀ k, (k < n)%nat → converged_at g d tol k = false) →
  manual_pagerank d iterations tol w = (inr (ranks_of g (iterate g d n)), w) ∧
  ∀ m, n = S m →
    iterate g d n =
    next_vector (length (engine_nodes g)) d (engine_matrix g) (iterate g d m).
Proof.
  intros g n Hwf Hne Hnever.
  destruct (manual_pagerank_run w d iterations tol Hwf Hne)
    as (k & out & Hrun & _ & Hend).
  split; [|by intros m ->].
  destruct Hend as [[-> ->]|(Hk & _ & Hconv)].
  - by rewrite world_eta in Hrun.
  - fold g in Hconv. rewrite Hnever in Hconv by done. done.
Qed.

Lemma manual_pagerank_budget_exhausted_witness :
  graph_wf (graph_obj world_G) ∧ nodes_of (graph_obj world_G) ≠ [] ∧
  (∀ k, (k < 3)%nat → converged_at G damping_085 tol_1e6 k = false) ∧
  manual_pagerank damping_085 3 tol_1e6 world_G =
    (inr (ranks_of G (iterate G damping_085 3)), world_G) ∧
  ∀ m, 3%nat = S m →
    iterate G damping_085 3 =
    next_vector (length (engine_nodes G)) damping_085 (engine_matrix G)
      (iterate G damping_085 m).
Proof.
  assert (graph_wf (graph_obj world_G)) as Hwf
    by (apply (bool_decide_unpack _); vm_compute; exact I).
  assert (nodes_of (graph_obj world_G) ≠ []) as Hne by (vm_compute; discriminate).
  assert (∀ k, (k < 3)%nat → converged_at G damping_085 tol_1e6 k = false) as Hnever.
  { intros k Hk.
    destruct k as [|[|[|k]]]; [vm_compute; reflexivity..|lia]. }
  split; [exact Hwf|]. split; [exact Hne|]. split; [exact Hnever|].
  exact (manual_pagerank_budget_exhausted world_G damping_085 3 tol_1e6
           Hwf Hne Hnever).
Defined.

(** ** Stopping on the distance test *)

(** When the loop first finds the distance below the tolerance at iteration
    [k], the call prints that iteration and returns the dict of
    [v = iterate k]: the [break] of line 78 comes before [v = v_next]. *)
Lemma manual_pagerank_converged (w : World) (d : Qc) (iterations : Z)
    (tol : Qc) (k : nat) :
  let g := graph_obj w in
  graph_wf g → nodes_of g ≠ [] →
  (k < Z.to_nat iterations)%nat →
  (∀ k', (k' < k)%nat → converged_at g d tol k' = false) →
  converged_at g d tol k = true →
  manual_pagerank d iterations tol w =
    (inr (ranks_of g (iterate g d k)),
     mkWorld g (stdout w ++ [Converged_at_iteration k])).
Proof.
  intros g Hwf Hne Hk Hbefore Hconv.
  destruct (manual_pagerank_run w d iterations tol Hwf Hne)
    as (k0 & out & Hrun & Hbefore0 & Hend). fold g in Hrun, Hbefore0, Hend.
  assert (k0 = k) as ->.
  { destruct (Nat.lt_trichotomy k0 k) as [Hlt|[?|Hgt]]; [|done|].
    - destruct Hend as [[-> _]|(_ & _ & Hc)]; [lia|].
      rewrite Hbefore in Hc by done. done.
    - rewrite Hbefore0 in Hconv by done. done. }
  destruct Hend as [[-> _]|(_ & -> & _)]; [lia|done].
Qed.

(** C3 fails on the code. On the example network with [d = 0.85],
    [iterations = 1] and [tol = 1] the first iteration computes
    [v_next = (77/180, 103/360, 103/360)], finds it within the tolerance of
    the initial [v = (1/3, 1/3, 1/3)], prints "Converged at iteration 0" and
    returns the mapping of [v], not of [v_next]. *)
Theorem manual_pagerank_returns_previous_iterate :
  let v := iterate G damping_085 0 in
  let v_next := iterate G damping_085 1 in
  (λ x : Qc, this x) <$> v = [1 # 3; 1 # 3; 1 # 3]%Q ∧
  (λ x : Qc, this x) <$> v_next = [77 # 180; 103 # 360; 103 # 360]%Q ∧
  converged_at G damping_085 1 0 = true ∧
  manual_pagerank damping_085 1 1 world_G =
    (inr (ranks_of G v), mkWorld G [Converged_at_iteration 0]) ∧
  ranks_of G v ≠ ranks_of G v_next.
Proof.
  intros v v_next.
  split; [by vm_compute|]. split; [by vm_compute|].
  assert (converged_at G damping_085 1 0 = true) as Hconv by (by vm_compute).
  split; [done|]. split.
  - apply (manual_pagerank_converged world_G damping_085 1 1 0);
      [apply G_wf|by vm_compute|simpl; lia|lia|done].
  - intros Heq.
    assert (ranks_of G v !! "A"%string = ranks_of G v_next !! "A"%string) as HA
      by (by rewrite Heq).
    vm_compute in HA. discriminate HA.
Qed.

(** The same happens in the experiment's own call (default arguments): the
    loop stops at iteration 22 and returns iterate 22, not iterate 23. *)
Lemma manual_pagerank_default_call :
  manual_pagerank damping_085 100 tol_1e6 world_G =
    (inr (ranks_of G (iterate G damping_085 22)),
     mkWorld G [Converged_at_iteration 22]).
Proof.
  apply (manual_pagerank_converged world_G damping_085 100 tol_1e6 22).
  - apply G_wf.
  - by vm_compute.
  - simpl. lia.
  - intros k Hk.
    assert (forallb (λ k, negb (converged_at G damping_085 tol_1e6 k)) (seq 0 22)
            = true) as Hall by (vm_compute; reflexivity).
    rewrite forallb_forall in Hall.
    apply negb_true_iff, Hall, in_seq. lia.
  - by vm_compute.
Qed.

(** ** The example network against a reference *)

Lemma Qcltb_lt (x y : Qc) : Qcltb x y = true ↔ x < y.
Proof.
  unfold Qcltb. rewrite Qclt_alt. by destruct (x ?= y).
Qed.

(** The reference is a probability vector fixed by the update of line 75. *)
Lemma reference_is_stationary :
  let v := [Q2Qc (37 # 94); Q2Qc (57 # 188); Q2Qc (57 # 188)] in
  reference_pagerank = ranks_of G v ∧
  vsum v = 1 ∧
  (λ x : Qc, this x) <$> next_vector 3 damping_085 (engine_matrix G) v =
  (λ x : Qc, this x) <$> v.
Proof.
  split; [by vm_compute|]. split; [apply Qc_is_canon|]; by vm_compute.
Qed.

(** Counterexample to C5 as stated: pages B and C receive exactly the same rank (rows B
    and C of the matrix are equal), so C does not rank above B. *)
Lemma example_B_and_C_tie :
  ∃ r w' b c,
    manual_pagerank damping_085 100 tol_1e6 world_G = (inr r, w') ∧
    r !! "B"%string = Some b ∧ r !! "C"%string = Some c ∧
    b = c ∧ ¬ (b < c).
Proof.
  eexists _, _, _, _. split; [apply manual_pagerank_default_call|].
  split; [vm_compute; reflexivity|]. split; [vm_compute; reflexivity|].
  split; [reflexivity|]. by vm_compute.
Qed.

(** C5, as the code has it. On the example network with [d = 0.85] the
    returned ranks are within 1e-3 of the reference for every page; A ranks
    strictly highest, and B and C are tied below it. *)
Theorem example_matches_reference :
  ∃ r w',
    manual_pagerank damping_085 100 tol_1e6 world_G = (inr r, w') ∧
    dom r = dom reference_pagerank ∧
    (∀ n x y, r !! n = Some x → reference_pagerank !! n = Some y →
       Qcabs (x - y) < Q2Qc (1 # 1000)) ∧
    ∃ a b c,
      r !! "A"%string = Some a ∧ r !! "B"%string = Some b ∧
      r !! "C"%string = Some c ∧
      b < a ∧ c < a ∧ b = c.
Proof.
  eexists _, _. split; [apply manual_pagerank_default_call|].
  set (r := ranks_of G (iterate G damping_085 22)).
  assert (dom r = list_to_set ["A"; "B"; "C"]%string) as Hdom
    by apply ranks_of_dom.
  split; [by rewrite Hdom|]. split.
  - assert (forallb (close_to (Q2Qc (1 # 1000)) r reference_pagerank)
              ["A"; "B"; "C"]%string = true) as Hall
      by (vm_compute; reflexivity).
    rewrite forallb_forall in Hall.
    intros n x y Hx Hy.
    assert (n ∈ dom r) as Hn by (apply elem_of_dom; eauto).
    rewrite Hdom, elem_of_list_to_set, list_elem_of_In in Hn.
    specialize (Hall n Hn). unfold close_to in Hall.
    rewrite Hx, Hy in Hall. by apply Qcltb_lt.
  - eexists _, _, _. split; [vm_compute; reflexivity|].
    split; [vm_compute; reflexivity|]. split; [vm_compute; reflexivity|].
    split; [by vm_compute|]. split; [by vm_compute|]. reflexivity.
Qed.

(** ** Determinism and the node order *)


Section same.
Context (g1 g2 : DiGraph).
Hypothesis same : same_graph g1 g2.





End same.




(** * Further properties of the solver *)

(** ** Absolute values and the L1 norm *)

Lemma Qcopp_nonneg (x : Qc) : x ≤ 0 → 0 ≤ - x.
Proof. intros Hx. apply Qcopp_le_compat in Hx. exact Hx. Qed.

Lemma Qcopp_nonpos (x : Qc) : 0 ≤ x → - x ≤ 0.
Proof. intros Hx. apply Qcopp_le_compat in Hx. exact Hx. Qed.

Lemma Qcabs_cases (x : Qc) :
  (x < 0 ∧ Qcabs x = - x) ∨ (0 ≤ x ∧ Qcabs x = x).
Proof.
  unfold Qcabs. destruct (Qcltb x 0) eqn:Hlt.
  - left. split; [by apply Qcltb_lt|done].
  - right. split; [|done]. apply Qcnot_lt_le. intros H%Qcltb_lt. congruence.
Qed.

Lemma Qcabs_nonneg (x : Qc) : 0 ≤ Qcabs x.
Proof.
  destruct (Qcabs_cases x) as [[Hx ->]|[Hx ->]]; [|done].
  by apply Qcopp_nonneg, Qclt_le_weak.
Qed.

Lemma Qcabs_of_nonneg (x : Qc) : 0 ≤ x → Qcabs x = x.
Proof.
  intros Hx. destruct (Qcabs_cases x) as [[Hlt _]|[_ ->]]; [|done].
  by destruct (Qclt_not_le _ _ Hlt).
Qed.

Lemma Qcabs_ge (x : Qc) : x ≤ Qcabs x.
Proof.
  destruct (Qcabs_cases x) as [[Hx ->]|[Hx ->]]; [|done].
  trans 0; [by apply Qclt_le_weak|by apply Qcopp_nonneg, Qclt_le_weak].
Qed.

Lemma Qcabs_ge_opp (x : Qc) : - x ≤ Qcabs x.
Proof.
  destruct (Qcabs_cases x) as [[Hx ->]|[Hx ->]]; [done|].
  trans 0; [by apply Qcopp_nonpos|done].
Qed.

Lemma Qcabs_le (x b : Qc) : x ≤ b → - x ≤ b → Qcabs x ≤ b.
Proof. intros H1 H2. by destruct (Qcabs_cases x) as [[_ ->]|[_ ->]]. Qed.

Lemma Qcabs_triangle (x y : Qc) : Qcabs (x + y) ≤ Qcabs x + Qcabs y.
Proof.
  apply Qcabs_le.
  - apply Qcplus_le_compat; apply Qcabs_ge.
  - replace (- (x + y)) with (- x + - y) by ring.
    apply Qcplus_le_compat; apply Qcabs_ge_opp.
Qed.

Lemma Qcabs_scale (c x : Qc) : 0 ≤ c → Qcabs (c * x) ≤ c * Qcabs x.
Proof.
  intros Hc. apply Qcabs_le.
  - apply Qcmult_le_mono_nonneg_l; [done|apply Qcabs_ge].
  - replace (- (c * x)) with (c * - x) by ring.
    apply Qcmult_le_mono_nonneg_l; [done|apply Qcabs_ge_opp].
Qed.

Lemma Qcabs_0_inv (x : Qc) : Qcabs x ≤ 0 → x = 0.
Proof.
  intros Hx. apply Qcle_antisym.
  - trans (Qcabs x); [apply Qcabs_ge|done].
  - pose proof (Qcabs_ge_opp x) as H.
    assert (- x ≤ 0) as H' by (by trans (Qcabs x)).
    apply Qcopp_le_compat in H'. by rewrite Qcopp_involutive in H'.
Qed.

Lemma vsum_fmap_le {A} (F G : A → Qc) (l : list A) :
  (∀ x, x ∈ l → F x ≤ G x) → vsum (F <$> l) ≤ vsum (G <$> l).
Proof.
  induction l as [|x l IH]; intros H; csimpl; rewrite ?vsum_cons; [done|].
  apply Qcplus_le_compat; [apply H; left|].
  apply IH. intros y Hy. apply H. by right.
Qed.

Lemma Qcabs_vsum {A} (F : A → Qc) (l : list A) :
  Qcabs (vsum (F <$> l)) ≤ vsum ((λ x, Qcabs (F x)) <$> l).
Proof.
  induction l as [|x l IH]; csimpl; rewrite ?vsum_cons; [done|].
  etrans; [apply Qcabs_triangle|]. by apply Qcplus_le_compat.
Qed.

Lemma vsum_fmap_sub {A} (F G : A → Qc) (l : list A) :
  vsum ((λ x, F x - G x) <$> l) = vsum (F <$> l) - vsum (G <$> l).
Proof.
  induction l as [|x l IH]; csimpl; rewrite ?vsum_cons, ?vsum_nil.
  - ring.
  - rewrite IH. ring.
Qed.

(** The L1 distance of two vectors of the same length, position by
    position. *)
Lemma norm1_vsub_table (a b : list Qc) :
  length a = length b →
  norm1 (vsub a b) = vsum ((λ j, Qcabs (at_ a j - at_ b j)) <$> seq 0 (length a)).
Proof.
  intros Hlen. unfold norm1, vsub.
  rewrite (vec_table a) at 1. rewrite (vec_table b) at 1. rewrite <-Hlen.
  rewrite zip_with_fmap_l, zip_with_fmap_r, zip_with_diag.
  by rewrite <-list_fmap_compose.
Qed.

Lemma at_table (F : nat → Qc) (n i : nat) :
  (i < n)%nat → at_ (F <$> seq 0 n) i = F i.
Proof.
  intros Hi. unfold at_. by rewrite list_lookup_fmap, lookup_seq_lt by done.
Qed.

(** ** The update is a contraction *)

Section contraction.
Context (N : nat) (f : nat → nat → Qc) (M : list (list Qc)).
Hypothesis M_table : is_matrix N f M.
Hypothesis f_nonneg : ∀ i j, 0 ≤ f i j.
Hypothesis f_columns : ∀ j, (j < N)%nat → vsum ((λ i, f i j) <$> seq 0 N) = 1.

Lemma next_vector_contracts (d : Qc) (a b : list Qc) :
  0 ≤ d → length a = N → length b = N →
  norm1 (vsub (next_vector N d M a) (next_vector N d M b)) ≤
  d * norm1 (vsub a b).
Proof.
  intros Hd Ha Hb.
  rewrite norm1_vsub_table
    by (by rewrite !(next_vector_length N f M M_table)).
  rewrite (next_vector_length N f M M_table).
  rewrite (norm1_vsub_table a b) by congruence. rewrite Ha.
  set (delta j := Qcabs (at_ a j - at_ b j)).
  trans (vsum ((λ i, vsum ((λ j, f i j * (d * delta j)) <$> seq 0 N))
                 <$> seq 0 N)).
  - apply vsum_fmap_le. intros i Hi%elem_of_seq.
    rewrite !(next_vector_table N f M M_table) by done.
    rewrite !at_table by lia.
    match goal with
    | |- Qcabs (?c + ?s1 - (?c + ?s2)) ≤ _ =>
        replace (c + s1 - (c + s2)) with (s1 - s2) by ring
    end.
    rewrite <-(vsum_fmap_sub (λ j, d * f i j * at_ a j)
                 (λ j, d * f i j * at_ b j)).
    etrans; [apply Qcabs_vsum|].
    apply vsum_fmap_le. intros j _. simpl.
    replace (d * f i j * at_ a j - d * f i j * at_ b j)
      with (d * f i j * (at_ a j - at_ b j)) by ring.
    etrans; [apply Qcabs_scale; by apply Qcmult_nonneg_nonneg|].
    subst delta. simpl.
    replace (d * f i j * Qcabs (at_ a j - at_ b j))
      with (f i j * (d * Qcabs (at_ a j - at_ b j))) by ring.
    done.
  - rewrite (vsum_exchange (λ i j, f i j * (d * delta j))).
    rewrite <-vsum_fmap_mult_l.
    rewrite (vsum_fmap_ext _ (λ j, d * delta j)); [done|].
    intros j Hj%elem_of_seq.
    rewrite (vsum_fmap_ext _ (λ i, (d * delta j) * f i j)) by (intros; ring).
    rewrite vsum_fmap_mult_l, f_columns by lia. ring.
Qed.
End contraction.

(** ** Distances between successive iterates *)

Lemma converged_at_distance (g : DiGraph) (d tol : Qc) (k : nat) :
  converged_at g d tol k = Qcltb (step_distance g d k) tol.
Proof. done. Qed.

Lemma at_nonneg (v : list Qc) (j : nat) :
  Forall (λ x, 0 ≤ x) v → 0 ≤ at_ v j.
Proof.
  intros Hv. unfold at_. destruct (v !! j) as [x|] eqn:Hx; simpl; [|done].
  rewrite Forall_forall in Hv. apply Hv. by eapply list_elem_of_lookup_2.
Qed.

Lemma norm1_vsub_le_sums (a b : list Qc) :
  length a = length b →
  Forall (λ x, 0 ≤ x) a → Forall (λ x, 0 ≤ x) b →
  norm1 (vsub a b) ≤ vsum a + vsum b.
Proof.
  intros Hlen Ha Hb. rewrite norm1_vsub_table by done.
  replace (vsum a) with (vsum (at_ a <$> seq 0 (length a)))
    by (by rewrite <-vec_table).
  replace (vsum b) with (vsum (at_ b <$> seq 0 (length a)))
    by (by rewrite Hlen, <-vec_table).
  rewrite <-vsum_fmap_plus. apply vsum_fmap_le. intros j _. simpl.
  pose proof (at_nonneg a j Ha). pose proof (at_nonneg b j Hb).
  apply Qcabs_le.
  - apply Qcplus_le_compat; [done|]. trans 0; [by apply Qcopp_nonpos|done].
  - replace (- (at_ a j - at_ b j)) with (- at_ a j + at_ b j) by ring.
    apply Qcplus_le_compat; [|done]. trans 0; [by apply Qcopp_nonpos|done].
Qed.

Section engine.
Context (g : DiGraph).
Hypothesis g_wf : graph_wf g.
Hypothesis g_nonempty : nodes_of g ≠ [].

Lemma engine_columns (j : nat) :
  (j < length (engine_nodes g))%nat →
  vsum ((λ i, transition_entry g (engine_nodes g) i j)
          <$> seq 0 (length (engine_nodes g))) = 1.
Proof.
  intros Hj. apply transition_column_sum;
    [done|by apply engine_nodes_NoDup|intros v; apply sorted_elem_of|done].
Qed.

Lemma engine_contracts (d : Qc) (a b : list Qc) :
  0 ≤ d → length a = length (engine_nodes g) →
  length b = length (engine_nodes g) →
  norm1 (vsub (next_vector (length (engine_nodes g)) d (engine_matrix g) a)
              (next_vector (length (engine_nodes g)) d (engine_matrix g) b)) ≤
  d * norm1 (vsub a b).
Proof.
  intros Hd Ha Hb.
  eapply next_vector_contracts;
    [apply engine_matrix_table|intros; apply transition_entry_nonneg|
     apply engine_columns|done..].
Qed.

Lemma step_distance_contracts (d : Qc) (k : nat) :
  0 ≤ d → step_distance g d (S k) ≤ d * step_distance g d k.
Proof.
  intros Hd. unfold step_distance. rewrite (iterate_S g d (S k)).
  rewrite (iterate_S g d k) at 1.
  apply engine_contracts; [done|apply iterate_length..].
Qed.

Lemma step_distance_bound (d : Qc) (k : nat) :
  0 ≤ d → d ≤ 1 → step_distance g d k ≤ 2 * d ^ k.
Proof.
  intros Hd0 Hd1. induction k as [|k IH].
  - unfold step_distance. change (d ^ 0) with 1. rewrite Qcmult_1_r.
    etrans; [apply norm1_vsub_le_sums|].
    + by rewrite !iterate_length.
    + by apply iterate_nonneg.
    + by apply iterate_nonneg.
    + by rewrite !iterate_sum by done.
  - etrans; [by apply step_distance_contracts|].
    replace (2 * d ^ S k) with (d * (2 * d ^ k)) by (simpl; ring).
    by apply Qcmult_le_mono_nonneg_l.
Qed.
End engine.

(** ** Exceptions *)

(** X1. On a graph without nodes a call with a positive iteration bound
    raises [ZeroDivisionError] (line 75 divides by [N = 0]); with a bound of
    zero or less it returns the empty dict. Either way it prints nothing. *)
Theorem manual_pagerank_on_empty_graph (w : World) (d : Qc) (iterations : Z)
    (tol : Qc) :
  nodes_of (graph_obj w) = [] →
  ((0 < iterations)%Z →
     manual_pagerank d iterations tol w = (inl ZeroDivisionError, w)) ∧
  ((iterations ≤ 0)%Z → manual_pagerank d iterations tol w = (inr ∅, w)).
Proof.
  intros Hnil. rewrite manual_pagerank_empty_graph by done.
  split; intros Hit; case_decide; (done || lia).
Qed.

Lemma manual_pagerank_on_empty_graph_witness :
  nodes_of (graph_obj (mkWorld [] [])) = [] ∧
  ((0 < 100)%Z →
     manual_pagerank damping_085 100 tol_1e6 (mkWorld [] []) =
       (inl ZeroDivisionError, mkWorld [] [])) ∧
  ((100 ≤ 0)%Z →
     manual_pagerank damping_085 100 tol_1e6 (mkWorld [] []) =
       (inr ∅, mkWorld [] [])).
Proof.
  split; [reflexivity|].
  apply (manual_pagerank_on_empty_graph (mkWorld [] []) damping_085 100 tol_1e6).
  reflexivity.
Defined.

(** X2. On a well-formed graph whose node identifiers are strings, none
    of the lookups and subscripts of a call fails: it raises no [KeyError]
    (from [node_idx[...]]), no [IndexError] (from [M[...]]) and no networkx
    error (from [graph.neighbors(u)]). When it raises [ZeroDivisionError],
    the graph is empty, the iteration bound is positive and nothing has
    been printed. *)
Theorem manual_pagerank_lookups_never_fail (w : World) (d : Qc)
    (iterations : Z) (tol : Qc) (e : PyError) (w' : World) :
  graph_wf (graph_obj w) →
  manual_pagerank d iterations tol w = (inl e, w') →
  e ≠ KeyError ∧ e ≠ IndexError ∧ e ≠ NetworkXError ∧
  (e = ZeroDivisionError →
   nodes_of (graph_obj w) = [] ∧ (0 < iterations)%Z ∧ w' = w).
Proof.
  intros Hwf Hrun.
  destruct (decide (nodes_of (graph_obj w) = [])) as [Hnil|Hne].
  - rewrite manual_pagerank_empty_graph in Hrun by done.
    case_decide; by simplify_eq.
  - destruct (manual_pagerank_run w d iterations tol Hwf Hne)
      as (k & out & Hrun' & _). congruence.
Qed.

Lemma manual_pagerank_lookups_never_fail_witness :
  graph_wf (graph_obj (mkWorld [] [])) ∧
  manual_pagerank damping_085 1 tol_1e6 (mkWorld [] []) =
    (inl ZeroDivisionError, mkWorld [] []) ∧
  ZeroDivisionError ≠ KeyError ∧ ZeroDivisionError ≠ IndexError ∧
  ZeroDivisionError ≠ NetworkXError ∧
  (ZeroDivisionError = ZeroDivisionError →
   nodes_of (graph_obj (mkWorld [] [])) = [] ∧ (0 < 1)%Z ∧
   mkWorld [] [] = mkWorld [] []).
Proof.
  assert (graph_wf (graph_obj (mkWorld [] []))) as Hwf
    by (apply (bool_decide_unpack _); vm_compute; exact I).
  assert (manual_pagerank damping_085 1 tol_1e6 (mkWorld [] []) =
            (inl ZeroDivisionError, mkWorld [] [])) as Hrun by reflexivity.
  split; [exact Hwf|]. split; [exact Hrun|].
  exact (manual_pagerank_lookups_never_fail (mkWorld [] []) damping_085 1
           tol_1e6 ZeroDivisionError (mkWorld [] []) Hwf Hrun).
Defined.

(** ** Convergence *)

(** X3. The update of line 75 with the engine's matrix is a contraction:
    for a damping factor [d >= 0], the L1 distance between the updates of
    two vectors is at most [d] times the L1 distance between the vectors. *)
Theorem update_is_contraction (w : World) (d : Qc) (a b : list Qc) :
  let g := graph_obj w in
  let nodes := sorted (nodes_of g) in
  let N := length nodes in
  graph_wf g → nodes_of g ≠ [] → 0 ≤ d → length a = N → length b = N →
  ∃ M a' b',
    build_matrix nodes w = (inr M, w) ∧
    update N d M a w = (inr a', w) ∧
    update N d M b w = (inr b', w) ∧
    norm1 (vsub a' b') ≤ d * norm1 (vsub a b).
Proof.
  intros g nodes N Hwf Hne Hd Ha Hb.
  pose proof (engine_nodes_nonempty g Hne) as HN.
  destruct (build_matrix_run g nodes Hwf (engine_nodes_NoDup g Hwf)
              (λ v, sorted_elem_of (nodes_of g) v) w eq_refl)
    as (M & HM & HMt).
  apply is_matrix_inv in HMt. subst M.
  eexists _, _, _. split; [exact HM|].
  split; [by apply update_run|]. split; [by apply update_run|].
  by apply (engine_contracts g Hwf).
Qed.

Lemma update_is_contraction_witness :
  graph_wf (graph_obj world_G) ∧ nodes_of (graph_obj world_G) ≠ [] ∧
  0 ≤ damping_085 ∧
  ∃ M a' b',
    build_matrix (sorted (nodes_of G)) world_G = (inr M, world_G) ∧
    update 3 damping_085 M [1; 0; 0] world_G = (inr a', world_G) ∧
    update 3 damping_085 M [0; 1; 0] world_G = (inr b', world_G) ∧
    norm1 (vsub a' b') ≤ damping_085 * norm1 (vsub [1; 0; 0] [0; 1; 0]).
Proof.
  assert (graph_wf (graph_obj world_G)) as Hwf
    by (apply (bool_decide_unpack _); vm_compute; exact I).
  assert (nodes_of (graph_obj world_G) ≠ []) as Hne by (vm_compute; discriminate).
  assert (0 ≤ damping_085) as Hd by (vm_compute; discriminate).
  split; [exact Hwf|]. split; [exact Hne|]. split; [exact Hd|].
  exact (update_is_contraction world_G damping_085 [1; 0; 0] [0; 1; 0]
           Hwf Hne Hd eq_refl eq_refl).
Defined.

Lemma first_convergence_within (w : World) (d : Qc) (iterations : Z)
    (tol : Qc) (k : nat) :
  let g := graph_obj w in
  graph_wf g → nodes_of g ≠ [] → 0 ≤ d ≤ 1 →
  (k < Z.to_nat iterations)%nat → 2 * d ^ k < tol →
  ∃ i, (i ≤ k)%nat ∧
    (∀ i', (i' < i)%nat → converged_at g d tol i' = false) ∧
    converged_at g d tol i = true ∧
    manual_pagerank d iterations tol w =
      (inr (ranks_of g (iterate g d i)),
       mkWorld g (stdout w ++ [Converged_at_iteration i])).
Proof.
  intros g Hwf Hne [Hd0 Hd1] Hk Htol.
  assert (converged_at g d tol k = true) as Hck.
  { rewrite converged_at_distance. apply Qcltb_lt.
    eapply Qcle_lt_trans; [by apply step_distance_bound|done]. }
  destruct (manual_pagerank_run w d iterations tol Hwf Hne)
    as (i & out & Hrun & Hbefore & Hend). fold g in Hrun, Hbefore, Hend.
  assert (i ≤ k)%nat as Hik.
  { destruct (decide (i ≤ k)%nat) as [?|Hgt]; [done|].
    rewrite Hbefore in Hck by lia. done. }
  destruct Hend as [[-> _]|(_ & -> & Hci)]; [lia|].
  exists i. by repeat split.
Qed.

(** X4. Guaranteed convergence, in exact arithmetic. For a damping factor
    in [0, 1]: if [2 * d^k < tol] for an iteration [k] within the budget,
    the loop stops on the distance test at some iteration [i <= k] and
    prints it; the budget is not exhausted. *)
Theorem manual_pagerank_converges (w : World) (d : Qc) (iterations : Z)
    (tol : Qc) (k : nat) :
  graph_wf (graph_obj w) → nodes_of (graph_obj w) ≠ [] → 0 ≤ d ≤ 1 →
  (k < Z.to_nat iterations)%nat → 2 * d ^ k < tol →
  ∃ i r, (i ≤ k)%nat ∧
    manual_pagerank d iterations tol w =
      (inr r, mkWorld (graph_obj w) (stdout w ++ [Converged_at_iteration i])).
Proof.
  intros Hwf Hne Hd Hk Htol.
  destruct (first_convergence_within w d iterations tol k
              Hwf Hne Hd Hk Htol) as (i & Hi & _ & _ & Hrun).
  by eexists _, _.
Qed.

Lemma manual_pagerank_converges_witness :
  graph_wf (graph_obj world_G) ∧ nodes_of (graph_obj world_G) ≠ [] ∧
  0 ≤ Q2Qc (1 # 2) ≤ 1 ∧ (4 < Z.to_nat 10)%nat ∧
  2 * Q2Qc (1 # 2) ^ 4 < Q2Qc (1 # 5) ∧
  ∃ i r, (i ≤ 4)%nat ∧
    manual_pagerank (Q2Qc (1 # 2)) 10 (Q2Qc (1 # 5)) world_G =
      (inr r, mkWorld (graph_obj world_G)
                (stdout world_G ++ [Converged_at_iteration i])).
Proof.
  assert (graph_wf (graph_obj world_G)) as Hwf
    by (apply (bool_decide_unpack _); vm_compute; exact I).
  assert (nodes_of (graph_obj world_G) ≠ []) as Hne by (vm_compute; discriminate).
  assert (0 ≤ Q2Qc (1 # 2) ≤ 1) as Hd by (split; vm_compute; discriminate).
  assert (4 < Z.to_nat 10)%nat as Hk by (vm_compute; lia).
  assert (2 * Q2Qc (1 # 2) ^ 4 < Q2Qc (1 # 5)) as Htol by (vm_compute; reflexivity).
  split; [exact Hwf|]. split; [exact Hne|]. split; [exact Hd|].
  split; [exact Hk|]. split; [exact Htol|].
  exact (manual_pagerank_converges world_G (Q2Qc (1 # 2)) 10 (Q2Qc (1 # 5)) 4
           Hwf Hne Hd Hk Htol).
Defined.

(** X5. With the default arguments ([d = 0.85], [iterations = 100],
    [tol = 1e-6]) the loop stops on the distance test within its first 91
    iterations on every non-empty graph: the budget of 100 is never
    exhausted. *)
Theorem default_call_always_converges (w : World) :
  graph_wf (graph_obj w) → nodes_of (graph_obj w) ≠ [] →
  ∃ i r, (i ≤ 90)%nat ∧
    manual_pagerank damping_085 100 tol_1e6 w =
      (inr r, mkWorld (graph_obj w) (stdout w ++ [Converged_at_iteration i])).
Proof.
  intros Hwf Hne.
  destruct (first_convergence_within w damping_085 100 tol_1e6 90
              Hwf Hne) as (i & Hi & _ & _ & Hrun).
  - split; vm_compute; discriminate.
  - vm_compute. lia.
  - vm_compute. reflexivity.
  - by eexists _, _.
Qed.

Lemma default_call_always_converges_witness :
  graph_wf (graph_obj world_G) ∧ nodes_of (graph_obj world_G) ≠ [] ∧
  ∃ i r, (i ≤ 90)%nat ∧
    manual_pagerank damping_085 100 tol_1e6 world_G =
      (inr r, mkWorld (graph_obj world_G)
                (stdout world_G ++ [Converged_at_iteration i])).
Proof.
  assert (graph_wf (graph_obj world_G)) as Hwf
    by (apply (bool_decide_unpack _); vm_compute; exact I).
  assert (nodes_of (graph_obj world_G) ≠ []) as Hne by (vm_compute; discriminate).
  split; [exact Hwf|]. split; [exact Hne|].
  exact (default_call_always_converges world_G Hwf Hne).
Defined.

(** X6. Once a call has stopped on the distance test (it printed its
    line), a larger iteration bound changes nothing: the call returns the
    same mapping and prints the same line. *)
Theorem manual_pagerank_budget_irrelevant (w : World) (d : Qc)
    (iterations iterations' : Z) (tol : Qc) :
  graph_wf (graph_obj w) → nodes_of (graph_obj w) ≠ [] →
  stdout (manual_pagerank d iterations tol w).2 ≠ stdout w →
  (iterations ≤ iterations')%Z →
  manual_pagerank d iterations' tol w = manual_pagerank d iterations tol w.
Proof.
  intros Hwf Hne Hprinted Hle.
  destruct (manual_pagerank_run w d iterations tol Hwf Hne)
    as (k & out & Hrun & Hbefore & Hend).
  rewrite Hrun in Hprinted |- *. simpl in Hprinted.
  destruct Hend as [[_ ->]|(Hk & -> & Hconv)].
  - by rewrite app_nil_r in Hprinted.
  - apply manual_pagerank_converged; [done..|lia|done|done].
Qed.

Lemma manual_pagerank_budget_irrelevant_witness :
  graph_wf (graph_obj world_G) ∧ nodes_of (graph_obj world_G) ≠ [] ∧
  stdout (manual_pagerank damping_085 30 tol_1e6 world_G).2 ≠ stdout world_G ∧
  (30 ≤ 100)%Z ∧
  manual_pagerank damping_085 100 tol_1e6 world_G =
    manual_pagerank damping_085 30 tol_1e6 world_G.
Proof.
  assert (graph_wf (graph_obj world_G)) as Hwf
    by (apply (bool_decide_unpack _); vm_compute; exact I).
  assert (nodes_of (graph_obj world_G) ≠ []) as Hne by (vm_compute; discriminate).
  assert (stdout (manual_pagerank damping_085 30 tol_1e6 world_G).2
            ≠ stdout world_G) as Hp by (vm_compute; discriminate).
  assert (30 ≤ 100)%Z as Hle by lia.
  split; [exact Hwf|]. split; [exact Hne|]. split; [exact Hp|]. split; [exact Hle|].
  exact (manual_pagerank_budget_irrelevant world_G damping_085 30 100 tol_1e6
           Hwf Hne Hp Hle).
Defined.

(** ** Looking up a page in the returned mapping *)

Lemma ranks_of_lookup (g : DiGraph) (v : list Qc) (i : nat) (n : node) :
  graph_wf g → length v = length (engine_nodes g) →
  engine_nodes g !! i = Some n →
  ranks_of g v !! n = Some (at_ v i).
Proof.
  intros Hwf Hlen Hn. unfold ranks_of.
  apply dict_lookup_zip; [by apply engine_nodes_NoDup|done|].
  exists i. split; [done|]. unfold at_.
  destruct (lookup_lt_is_Some_2 v i) as [x ->]; [|done].
  rewrite Hlen. by eapply lookup_lt_Some.
Qed.

Lemma ranks_of_lookup_inv (g : DiGraph) (v : list Qc) (n : node) (x : Qc) :
  graph_wf g → length v = length (engine_nodes g) →
  ranks_of g v !! n = Some x →
  ∃ i, engine_nodes g !! i = Some n ∧ x = at_ v i.
Proof.
  intros Hwf Hlen Hx. unfold ranks_of in Hx.
  apply dict_lookup_zip in Hx as (i & Hi & Hv);
    [|by apply engine_nodes_NoDup|done].
  exists i. split; [done|]. unfold at_. by rewrite Hv.
Qed.

Lemma vsum_ge_elem (v : list Qc) (x : Qc) :
  Forall (λ y, 0 ≤ y) v → x ∈ v → x ≤ vsum v.
Proof.
  induction 1 as [|y v Hy Hv IH]; [by intros ?%elem_of_nil|].
  rewrite vsum_cons. intros [->|Hx]%elem_of_cons.
  - rewrite <-(Qcplus_0_r y) at 1.
    apply Qcplus_le_compat; [done|by apply vsum_nonneg].
  - rewrite <-(Qcplus_0_l x). apply Qcplus_le_compat; [done|by apply IH].
Qed.

Lemma at_elem_of (v : list Qc) (i : nat) :
  (i < length v)%nat → at_ v i ∈ v.
Proof.
  intros Hi. unfold at_. destruct (lookup_lt_is_Some_2 v i Hi) as [x Hx].
  rewrite Hx. simpl. by eapply list_elem_of_lookup_2.
Qed.

(** ** One page, and bounds on every rank *)

(** X7. In exact arithmetic a graph with a single page (with or without a
    self-loop) always gives that page rank exactly 1, whatever the damping
    factor, the iteration bound and the tolerance. *)
Theorem single_page_rank_one (w : World) (d : Qc) (iterations : Z) (tol : Qc)
    (u : node) :
  graph_wf (graph_obj w) → nodes_of (graph_obj w) = [u] →
  ∃ w', manual_pagerank d iterations tol w = (inr {[ u := 1 ]}, w').
Proof.
  intros Hwf Hu. set (g := graph_obj w) in *.
  assert (nodes_of g ≠ []) as Hne by (by rewrite Hu).
  destruct (manual_pagerank_run w d iterations tol Hwf Hne)
    as (k & out & Hrun & _). fold g in Hrun.
  eexists. rewrite Hrun. do 2 f_equal.
  assert (engine_nodes g = [u]) as Hnodes.
  { apply Permutation_singleton_r. unfold engine_nodes.
    by rewrite sorted_Permutation, Hu. }
  pose proof (iterate_length g d k) as Hlen.
  pose proof (iterate_sum g d k Hwf Hne) as Hsum.
  unfold ranks_of. rewrite Hnodes in Hlen |- *.
  destruct (iterate g d k) as [|x [|??]]; simplify_eq/=.
  rewrite vsum_cons, vsum_nil, Qcplus_0_r in Hsum. subst x.
  by rewrite insert_empty.
Qed.

Lemma single_page_rank_one_witness :
  graph_wf (graph_obj (mkWorld G_single [])) ∧
  nodes_of (graph_obj (mkWorld G_single [])) = ["A"%string] ∧
  ∃ w', manual_pagerank damping_085 100 tol_1e6 (mkWorld G_single []) =
          (inr {[ "A"%string := 1 ]}, w').
Proof.
  assert (graph_wf (graph_obj (mkWorld G_single []))) as Hwf
    by (apply (bool_decide_unpack _); vm_compute; exact I).
  assert (nodes_of (graph_obj (mkWorld G_single [])) = ["A"%string]) as Hu
    by reflexivity.
  split; [exact Hwf|]. split; [exact Hu|].
  exact (single_page_rank_one (mkWorld G_single []) damping_085 100 tol_1e6
           "A"%string Hwf Hu).
Defined.

Lemma iterate_lower_bound (g : DiGraph) (d : Qc) (k : nat) :
  0 ≤ d → d ≤ 1 →
  Forall (λ x, (1 - d) / Qc_of_nat (length (engine_nodes g)) ≤ x)
    (iterate g d k).
Proof.
  intros Hd0 Hd1. destruct k as [|k].
  - unfold iterate. simpl. rewrite initial_vector_replicate.
    apply Forall_replicate. unfold Qcdiv.
    apply Qcmult_le_mono_nonneg_r.
    + rewrite <-(Qcmult_1_l (/ _)). apply Qc_inv_of_nat_nonneg.
    + rewrite <-(Qcplus_0_r 1) at 2. unfold Qcminus.
      apply Qcplus_le_compat; [done|by apply Qcopp_nonpos].
  - rewrite iterate_S.
    rewrite (next_vector_table _ _ _ (engine_matrix_table g))
      by apply iterate_length.
    apply Forall_fmap, Forall_forall. intros i _. simpl.
    rewrite <-(Qcplus_0_r (_ / _)) at 1.
    apply Qcplus_le_compat; [done|].
    apply vsum_nonneg, Forall_fmap, Forall_forall. intros j _. simpl.
    apply Qcmult_nonneg_nonneg.
    + apply Qcmult_nonneg_nonneg; [done|apply transition_entry_nonneg].
    + by apply at_nonneg, iterate_nonneg.
Qed.

(** X8. For a damping factor in [0, 1] every page of a non-empty graph
    gets a rank between the teleportation share [(1 - d) / N] and 1. *)
Theorem manual_pagerank_rank_bounds (w : World) (d : Qc) (iterations : Z)
    (tol : Qc) :
  graph_wf (graph_obj w) → nodes_of (graph_obj w) ≠ [] → 0 ≤ d ≤ 1 →
  ∃ r w', manual_pagerank d iterations tol w = (inr r, w') ∧
    ∀ n x, r !! n = Some x →
      (1 - d) / Qc_of_nat (length (nodes_of (graph_obj w))) ≤ x ≤ 1.
Proof.
  intros Hwf Hne [Hd0 Hd1]. set (g := graph_obj w) in *.
  destruct (manual_pagerank_run w d iterations tol Hwf Hne)
    as (k & out & Hrun & _). fold g in Hrun.
  eexists _, _. split; [exact Hrun|]. intros n x Hx.
  apply ranks_of_lookup_inv in Hx as (i & Hi & ->);
    [|done|apply iterate_length].
  assert (at_ (iterate g d k) i ∈ iterate g d k) as Hin.
  { apply at_elem_of. rewrite iterate_length. by eapply lookup_lt_Some. }
  split.
  - pose proof (iterate_lower_bound g d k Hd0 Hd1) as Hlow.
    rewrite Forall_forall in Hlow. rewrite <-engine_nodes_length.
    by apply Hlow.
  - rewrite <-(iterate_sum g d k Hwf Hne).
    apply vsum_ge_elem; [by apply iterate_nonneg|done].
Qed.

Lemma manual_pagerank_rank_bounds_witness :
  graph_wf (graph_obj world_G) ∧ nodes_of (graph_obj world_G) ≠ [] ∧
  0 ≤ damping_085 ≤ 1 ∧
  ∃ r w', manual_pagerank damping_085 100 tol_1e6 world_G = (inr r, w') ∧
    ∀ n x, r !! n = Some x →
      (1 - damping_085) / Qc_of_nat (length (nodes_of (graph_obj world_G)))
        ≤ x ≤ 1.
Proof.
  assert (graph_wf (graph_obj world_G)) as Hwf
    by (apply (bool_decide_unpack _); vm_compute; exact I).
  assert (nodes_of (graph_obj world_G) ≠ []) as Hne by (vm_compute; discriminate).
  assert (0 ≤ damping_085 ≤ 1) as Hd by (split; vm_compute; discriminate).
  split; [exact Hwf|]. split; [exact Hne|]. split; [exact Hd|].
  exact (manual_pagerank_rank_bounds world_G damping_085 100 tol_1e6 Hwf Hne Hd).
Defined.

(** ** Pages that receive the same links *)

Lemma transition_entry_share (g : DiGraph) (i j : nat) (x u : node) :
  engine_nodes g !! i = Some x → engine_nodes g !! j = Some u →
  transition_entry g (engine_nodes g) i j = share g u x.
Proof.
  intros Hi Hj. unfold transition_entry, share, at_in.
  rewrite Hi, Hj, engine_nodes_length. done.
Qed.

Lemma iterate_tie (g : DiGraph) (d : Qc) (k i i' : nat) (x y : node) :
  engine_nodes g !! i = Some x → engine_nodes g !! i' = Some y →
  (∀ u, u ∈ nodes_of g → share g u x = share g u y) →
  at_ (iterate g d k) i = at_ (iterate g d k) i'.
Proof.
  intros Hi Hi' Hshare.
  assert (i < length (engine_nodes g))%nat by (by eapply lookup_lt_Some).
  assert (i' < length (engine_nodes g))%nat by (by eapply lookup_lt_Some).
  destruct k as [|k].
  - unfold iterate. simpl. rewrite initial_vector_replicate. unfold at_.
    by rewrite !lookup_replicate_2.
  - rewrite iterate_S.
    rewrite (next_vector_table _ _ _ (engine_matrix_table g))
      by apply iterate_length.
    rewrite !at_table by done. f_equal.
    apply vsum_fmap_ext. intros j Hj%elem_of_seq.
    destruct (lookup_lt_is_Some_2 (engine_nodes g) j) as [u Hu]; [lia|].
    rewrite (transition_entry_share g i j x u), (transition_entry_share g i' j y u)
      by done.
    rewrite Hshare; [done|]. apply sorted_elem_of. by eapply list_elem_of_lookup_2.
Qed.

(** X9. Two pages with the same in-links get the same rank: if every page
    links to [x] exactly when it links to [y], the returned mapping ranks
    [x] and [y] equally, for every damping factor, bound and tolerance. *)
Theorem same_in_links_same_rank (w : World) (d : Qc) (iterations : Z)
    (tol : Qc) (x y : node) :
  let g := graph_obj w in
  graph_wf g → x ∈ nodes_of g → y ∈ nodes_of g →
  Forall (λ e, x ∈ e.2 ↔ y ∈ e.2) g →
  ∃ r w', manual_pagerank d iterations tol w = (inr r, w') ∧
    r !! x = r !! y ∧ is_Some (r !! x).
Proof.
  intros g Hwf Hx Hy Hlinks.
  assert (nodes_of g ≠ []) as Hne by (intros Hnil; rewrite Hnil in Hx; set_solver).
  destruct (manual_pagerank_run w d iterations tol Hwf Hne)
    as (k & out & Hrun & _). fold g in Hrun.
  eexists _, _. split; [exact Hrun|].
  apply sorted_elem_of, list_elem_of_lookup_1 in Hx as [i Hi].
  apply sorted_elem_of, list_elem_of_lookup_1 in Hy as [i' Hi'].
  rewrite (ranks_of_lookup g _ i x), (ranks_of_lookup g _ i' y)
    by (done || apply iterate_length).
  split; [|done]. f_equal.
  apply (iterate_tie g d k i i' x y); [done..|].
  intros u Hu. unfold share.
  destruct (neighbors_of g u) as [ns|] eqn:Hns; [|done].
  apply neighbors_of_elem in Hns. rewrite Forall_forall in Hlinks.
  specialize (Hlinks _ Hns). simpl in Hlinks.
  case_decide; [done|]. by rewrite (bool_decide_ext _ _ Hlinks).
Qed.

Lemma same_in_links_same_rank_witness :
  graph_wf (graph_obj world_G) ∧ "B"%string ∈ nodes_of (graph_obj world_G) ∧
  "C"%string ∈ nodes_of (graph_obj world_G) ∧
  Forall (λ e, "B"%string ∈ e.2 ↔ "C"%string ∈ e.2) (graph_obj world_G) ∧
  ∃ r w', manual_pagerank damping_085 100 tol_1e6 world_G = (inr r, w') ∧
    r !! "B"%string = r !! "C"%string ∧ is_Some (r !! "B"%string).
Proof.
  assert (graph_wf (graph_obj world_G)) as Hwf
    by (apply (bool_decide_unpack _); vm_compute; exact I).
  assert ("B"%string ∈ nodes_of (graph_obj world_G)) as HB
    by (apply (bool_decide_unpack _); vm_compute; exact I).
  assert ("C"%string ∈ nodes_of (graph_obj world_G)) as HC
    by (apply (bool_decide_unpack _); vm_compute; exact I).
  assert (Forall (λ e, "B"%string ∈ e.2 ↔ "C"%string ∈ e.2)
            (graph_obj world_G)) as Hlinks
    by (apply (bool_decide_unpack _); vm_compute; exact I).
  split; [exact Hwf|]. split; [exact HB|]. split; [exact HC|].
  split; [exact Hlinks|].
  exact (same_in_links_same_rank world_G damping_085 100 tol_1e6
           "B"%string "C"%string Hwf HB HC Hlinks).
Defined.

(** ** Balanced graphs keep the uniform vector *)

Lemma transition_row_sum (g : DiGraph) (i : nat) (x : node) :
  engine_nodes g !! i = Some x →
  vsum ((λ j, transition_entry g (engine_nodes g) i j)
          <$> seq 0 (length (engine_nodes g))) = in_weight g x.
Proof.
  intros Hi.
  rewrite (vsum_fmap_ext _
    (λ j, match engine_nodes g !! j with
          | Some u => share g u x
          | None => 0
          end)).
  - rewrite (fmap_lookup_seq
      (λ o, match o with Some u => share g u x | None => 0 end)
      (engine_nodes g)).
    unfold in_weight. apply vsum_Permutation.
    apply fmap_Permutation, sorted_Permutation.
  - intros j Hj%elem_of_seq.
    destruct (lookup_lt_is_Some_2 (engine_nodes g) j) as [u Hu]; [lia|].
    rewrite Hu. by apply transition_entry_share.
Qed.

Lemma iterate_uniform (g : DiGraph) (d : Qc) (k : nat) :
  nodes_of g ≠ [] →
  Forall (λ x, in_weight g x = 1) (nodes_of g) →
  iterate g d k =
  replicate (length (engine_nodes g)) (1 / Qc_of_nat (length (engine_nodes g))).
Proof.
  intros Hne Hbal. pose proof (engine_nodes_nonempty g Hne) as HN.
  set (N := length (engine_nodes g)) in *.
  induction k as [|k IH].
  - unfold iterate. simpl. apply initial_vector_replicate.
  - rewrite iterate_S.
    rewrite (next_vector_table _ _ _ (engine_matrix_table g))
      by apply iterate_length.
    rewrite IH. fold N.
    trans (replicate (length (seq 0 N)) (1 / Qc_of_nat N));
      [|by rewrite length_seq].
    apply const_fmap. intros ? i Hi%list_elem_of_lookup_2%elem_of_seq.
    destruct (lookup_lt_is_Some_2 (engine_nodes g) i) as [x Hx]; [fold N; lia|].
    rewrite (vsum_fmap_ext _
      (λ j, (d * (1 / Qc_of_nat N)) * transition_entry g (engine_nodes g) i j)).
    + rewrite vsum_fmap_mult_l. fold N in Hx |- *.
      pose proof (transition_row_sum g i x Hx) as Hrow. fold N in Hrow.
      change (vsum (transition_entry g (engine_nodes g) i <$> seq 0 N)
              = in_weight g x) in Hrow.
      rewrite Hrow.
      rewrite Forall_forall in Hbal. rewrite Hbal.
      * field. by apply Qc_of_nat_ne_0.
      * apply sorted_elem_of. by eapply list_elem_of_lookup_2.
    + intros j Hj%elem_of_seq. unfold at_.
      rewrite lookup_replicate_2 by lia. simpl. ring.
Qed.

Lemma ranks_of_uniform (g : DiGraph) (n : node) (x c : Qc) :
  graph_wf g →
  ranks_of g (replicate (length (engine_nodes g)) c) !! n = Some x → x = c.
Proof.
  intros Hwf Hx.
  apply ranks_of_lookup_inv in Hx as (i & Hi & ->);
    [|done|by rewrite length_replicate].
  unfold at_. rewrite lookup_replicate_2; [done|]. by eapply lookup_lt_Some.
Qed.

Lemma uniform_converged_at (g : DiGraph) (d tol : Qc) (k : nat) :
  nodes_of g ≠ [] →
  Forall (λ x, in_weight g x = 1) (nodes_of g) →
  0 < tol → converged_at g d tol k = true.
Proof.
  intros Hne Hbal Htol. rewrite converged_at_distance. apply Qcltb_lt.
  unfold step_distance. rewrite !iterate_uniform by done.
  rewrite norm1_vsub_table by done.
  rewrite (vsum_fmap_ext _ (λ _, 0)).
  - rewrite vsum_fmap_const. by rewrite Qcmult_0_r.
  - intros j _. replace (_ - _) with (Q2Qc 0) by ring. done.
Qed.

(** X10. In exact arithmetic: where every page receives total weight 1
    (the shares passed to it by all pages add up to 1, as on a directed
    ring), every page gets rank exactly [1/N], for every damping factor;
    with a positive tolerance and a positive iteration bound the loop stops
    at iteration 0. *)
Theorem balanced_graph_uniform_ranks (w : World) (d : Qc) (iterations : Z)
    (tol : Qc) :
  let g := graph_obj w in
  graph_wf g → nodes_of g ≠ [] →
  Forall (λ x, in_weight g x = 1) (nodes_of g) →
  ∃ r w', manual_pagerank d iterations tol w = (inr r, w') ∧
    dom r = list_to_set (nodes_of g) ∧
    (∀ n x, r !! n = Some x → x = 1 / Qc_of_nat (length (nodes_of g))) ∧
    (0 < tol → (0 < iterations)%Z →
     w' = mkWorld g (stdout w ++ [Converged_at_iteration 0])).
Proof.
  intros g Hwf Hne Hbal.
  destruct (manual_pagerank_run w d iterations tol Hwf Hne)
    as (k & out & Hrun & Hbefore & Hend). fold g in Hrun, Hbefore, Hend.
  eexists _, _. split; [exact Hrun|]. split; [apply ranks_of_dom|]. split.
  - intros n x Hx. rewrite iterate_uniform in Hx by done.
    apply ranks_of_uniform in Hx; [|done]. by rewrite engine_nodes_length in Hx.
  - intros Htol Hit.
    pose proof (uniform_converged_at g d tol 0 Hne Hbal Htol) as Hc.
    destruct Hend as [[-> _]|(_ & -> & _)].
    + rewrite Hbefore in Hc by lia. done.
    + destruct k as [|k]; [done|].
      rewrite Hbefore in Hc by lia. done.
Qed.

Lemma balanced_graph_uniform_ranks_witness :
  graph_wf (graph_obj (mkWorld G_ring [])) ∧
  nodes_of (graph_obj (mkWorld G_ring [])) ≠ [] ∧
  Forall (λ x, in_weight G_ring x = 1) (nodes_of G_ring) ∧
  ∃ r w', manual_pagerank damping_085 100 tol_1e6 (mkWorld G_ring []) =
            (inr r, w') ∧
    dom r = list_to_set (nodes_of G_ring) ∧
    (∀ n x, r !! n = Some x → x = 1 / Qc_of_nat (length (nodes_of G_ring))) ∧
    (0 < tol_1e6 → (0 < 100)%Z →
     w' = mkWorld G_ring
            (stdout (mkWorld G_ring []) ++ [Converged_at_iteration 0])).
Proof.
  assert (graph_wf (graph_obj (mkWorld G_ring []))) as Hwf
    by (apply (bool_decide_unpack _); vm_compute; exact I).
  assert (nodes_of (graph_obj (mkWorld G_ring [])) ≠ []) as Hne
    by (vm_compute; discriminate).
  assert (Forall (λ x, in_weight G_ring x = 1) (nodes_of G_ring)) as Hbal
    by (apply (bool_decide_unpack _); vm_compute; exact I).
  split; [exact Hwf|]. split; [exact Hne|]. split; [exact Hbal|].
  exact (balanced_graph_uniform_ranks (mkWorld G_ring []) damping_085 100
           tol_1e6 Hwf Hne Hbal).
Defined.

Lemma edgeless_in_weight (g : DiGraph) (x : node) :
  nodes_of g ≠ [] → Forall (λ e, e.2 = []) g → in_weight g x = 1.
Proof.
  intros Hne Hedge. unfold in_weight.
  rewrite (vsum_fmap_ext _ (λ _, 1 / Qc_of_nat (length (nodes_of g)))).
  - rewrite vsum_fmap_const. apply Qc_of_nat_inv. by destruct (nodes_of g).
  - intros u Hu. unfold share.
    destruct (neighbors_of_is_Some g u Hu) as [ns Hns]. rewrite Hns.
    apply neighbors_of_elem in Hns. rewrite Forall_forall in Hedge.
    specialize (Hedge _ Hns). simpl in Hedge. subst ns. done.
Qed.

(** X11. In exact arithmetic: on a graph with pages but no links at all
    (every page dangling) a call with a positive tolerance and a positive
    iteration bound stops at iteration 0, prints "Converged at iteration 0"
    and gives every page the rank [1/N]. *)
Theorem edgeless_graph_converges_at_once (w : World) (d : Qc) (iterations : Z)
    (tol : Qc) :
  let g := graph_obj w in
  graph_wf g → nodes_of g ≠ [] → Forall (λ e, e.2 = []) g →
  0 < tol → (0 < iterations)%Z →
  ∃ r, manual_pagerank d iterations tol w =
         (inr r, mkWorld g (stdout w ++ [Converged_at_iteration 0])) ∧
    dom r = list_to_set (nodes_of g) ∧
    ∀ n x, r !! n = Some x → x = 1 / Qc_of_nat (length (nodes_of g)).
Proof.
  intros g Hwf Hne Hedge Htol Hit.
  assert (Forall (λ x, in_weight g x = 1) (nodes_of g)) as Hbal.
  { apply Forall_forall. intros x _. by apply edgeless_in_weight. }
  eexists. split.
  - apply manual_pagerank_converged; [done|done|lia|lia|].
    by apply uniform_converged_at.
  - split; [apply ranks_of_dom|].
    intros n x Hx. rewrite iterate_uniform in Hx by done.
    apply ranks_of_uniform in Hx; [|done]. by rewrite engine_nodes_length in Hx.
Qed.

Lemma edgeless_graph_converges_at_once_witness :
  graph_wf (graph_obj (mkWorld G_edgeless [])) ∧
  nodes_of (graph_obj (mkWorld G_edgeless [])) ≠ [] ∧
  Forall (λ e, e.2 = []) (graph_obj (mkWorld G_edgeless [])) ∧
  0 < tol_1e6 ∧ (0 < 100)%Z ∧
  ∃ r, manual_pagerank damping_085 100 tol_1e6 (mkWorld G_edgeless []) =
         (inr r, mkWorld G_edgeless
                   (stdout (mkWorld G_edgeless []) ++ [Converged_at_iteration 0])) ∧
    dom r = list_to_set (nodes_of G_edgeless) ∧
    ∀ n x, r !! n = Some x → x = 1 / Qc_of_nat (length (nodes_of G_edgeless)).
Proof.
  assert (graph_wf (graph_obj (mkWorld G_edgeless []))) as Hwf
    by (apply (bool_decide_unpack _); vm_compute; exact I).
  assert (nodes_of (graph_obj (mkWorld G_edgeless [])) ≠ []) as Hne
    by (vm_compute; discriminate).
  assert (Forall (λ e, e.2 = []) (graph_obj (mkWorld G_edgeless []))) as Hedge
    by (apply (bool_decide_unpack _); vm_compute; exact I).
  assert (0 < tol_1e6) as Htol by reflexivity.
  assert (0 < 100)%Z as Hit by lia.
  split; [exact Hwf|]. split; [exact Hne|]. split; [exact Hedge|].
  split; [exact Htol|]. split; [exact Hit|].
  exact (edgeless_graph_converges_at_once (mkWorld G_edgeless []) damping_085
           100 tol_1e6 Hwf Hne Hedge Htol Hit).
Defined.

(** ** The index dict *)

(** X12. The dict of line 55 maps every node to its position in [nodes]:
    [node_idx[u] = i] exactly when [i] is the last position holding [u]
    (the only one when the nodes are distinct), and a node that does not
    occur has no entry. *)
Theorem make_node_idx_last_position (nodes : list node) (u : node) (i : nat) :
  make_node_idx nodes !! u = Some i ↔
  nodes !! i = Some u ∧ ∀ j, (i < j)%nat → nodes !! j ≠ Some u.
Proof.
  revert i. induction nodes as [|x l IH] using rev_ind; intros i.
  - unfold make_node_idx. simpl. rewrite lookup_empty. naive_solver.
  - rewrite make_node_idx_snoc. destruct (decide (u = x)) as [->|Hne].
    + rewrite lookup_insert_eq. split.
      * intros [= <-]. split; [by rewrite list_lookup_middle|].
        intros j Hj. rewrite lookup_ge_None_2; [done|].
        rewrite length_app. simpl. lia.
      * intros [Hi Hlast]. f_equal.
        destruct (decide (i < length l)%nat) as [Hlt|Hge].
        -- destruct (Hlast (length l) Hlt). by rewrite list_lookup_middle.
        -- apply lookup_lt_Some in Hi. rewrite length_app in Hi. simpl in Hi. lia.
    + rewrite lookup_insert_ne by done. rewrite IH. split.
      * intros [Hi Hlast]. split; [by apply lookup_app_l_Some|].
        intros j Hj Hu. apply lookup_app_Some in Hu as [Hu|[_ Hu]].
        -- by apply (Hlast j).
        -- apply list_lookup_singleton_Some in Hu as [_ ?]. congruence.
      * intros [Hi Hlast].
        apply lookup_app_Some in Hi as [Hi|[_ Hi]].
        -- split; [done|]. intros j Hj Hu. apply (Hlast j Hj).
           by apply lookup_app_l_Some.
        -- apply list_lookup_singleton_Some in Hi as [_ ?]. congruence.
Qed.

(** ** Distance to the stationary vector *)




Lemma norm1_nonneg (x : list Qc) : 0 ≤ norm1 x.
Proof.
  unfold norm1. apply vsum_nonneg, Forall_fmap, Forall_forall.
  intros y _. apply Qcabs_nonneg.
Qed.

Lemma norm1_vsub_0_inv (a b : list Qc) :
  length a = length b → norm1 (vsub a b) ≤ 0 → a = b.
Proof.
  intros Hlen H0. rewrite norm1_vsub_table in H0 by done.
  rewrite (vec_table a), (vec_table b), <-Hlen.
  apply list_fmap_ext. intros _ j Hj%list_elem_of_lookup_2.
  assert (Qcabs (at_ a j - at_ b j) ≤ 0) as Hj0.
  { etrans; [|exact H0].
    apply (vsum_ge_elem ((λ j, Qcabs (at_ a j - at_ b j)) <$> seq 0 (length a))).
    - apply Forall_fmap, Forall_forall. intros ? _. apply Qcabs_nonneg.
    - apply list_elem_of_fmap. by exists j. }
  apply Qcabs_0_inv in Hj0.
  replace (at_ a j) with ((at_ a j - at_ b j) + at_ b j) by ring.
  rewrite Hj0. ring.
Qed.

(** A vector the code's update maps to itself. *)
Lemma stationary_next_vector (w : World) (d : Qc) (p : list Qc) :
  let g := graph_obj w in
  graph_wf g → nodes_of g ≠ [] →
  (∃ M, build_matrix (sorted (nodes_of g)) w = (inr M, w) ∧
        update (length (sorted (nodes_of g))) d M p w = (inr p, w)) →
  next_vector (length (engine_nodes g)) d (engine_matrix g) p = p.
Proof.
  intros g Hwf Hne (M & HM & Hupd).
  destruct (build_matrix_run g (engine_nodes g) Hwf (engine_nodes_NoDup g Hwf)
              (λ v, sorted_elem_of (nodes_of g) v) w eq_refl)
    as (M' & HM' & HMt).
  apply is_matrix_inv in HMt. fold (engine_matrix g) in HMt. subst M'.
  unfold engine_nodes in HM' at 1. rewrite HM in HM'. simplify_eq.
  rewrite update_run in Hupd by (by apply engine_nodes_nonempty).
  by simplify_eq.
Qed.

Lemma stationary_G_fixed :
  ∃ M, build_matrix (sorted (nodes_of (graph_obj world_G))) world_G
         = (inr M, world_G) ∧
       update (length (sorted (nodes_of (graph_obj world_G)))) damping_085 M
         stationary_G world_G = (inr stationary_G, world_G).
Proof.
  exists (engine_matrix G). split; [vm_compute; reflexivity|].
  apply (bool_decide_unpack _). vm_compute. exact I.
Defined.

(** X13. In exact arithmetic, for a damping factor below 1 the update of
    line 75 has at most one fixed point of the right length: teleportation
    makes the stationary vector unique, whatever the shape of the graph. *)
Theorem stationary_vector_unique (w : World) (d : Qc) (p p' : list Qc) :
  let g := graph_obj w in
  let nodes := sorted (nodes_of g) in
  let N := length nodes in
  graph_wf g → nodes_of g ≠ [] → 0 ≤ d → d < 1 →
  length p = N → length p' = N →
  (∃ M, build_matrix nodes w = (inr M, w) ∧ update N d M p w = (inr p, w)) →
  (∃ M, build_matrix nodes w = (inr M, w) ∧ update N d M p' w = (inr p', w)) →
  p = p'.
Proof.
  intros g nodes N Hwf Hne Hd0 Hd1 Hp Hp' Hfix Hfix'.
  apply stationary_next_vector in Hfix; [|done..].
  apply stationary_next_vector in Hfix'; [|done..].
  fold g in Hfix, Hfix'.
  pose proof (engine_contracts g Hwf d p p' Hd0 Hp Hp') as Hc.
  rewrite Hfix, Hfix' in Hc.
  apply norm1_vsub_0_inv; [congruence|].
  destruct (Qclt_le_dec 0 (norm1 (vsub p p'))) as [Hpos|?]; [|done].
  apply (Qcmult_lt_mono_pos_r _ _ _ Hpos) in Hd1.
  rewrite Qcmult_1_l in Hd1. by destruct (Qclt_not_le _ _ Hd1).
Qed.

Lemma stationary_vector_unique_witness :
  graph_wf (graph_obj world_G) ∧ nodes_of (graph_obj world_G) ≠ [] ∧
  0 ≤ damping_085 ∧ damping_085 < 1 ∧
  length stationary_G = length (sorted (nodes_of (graph_obj world_G))) ∧
  stationary_G = stationary_G.
Proof.
  assert (graph_wf (graph_obj world_G)) as Hwf
    by (apply (bool_decide_unpack _); vm_compute; exact I).
  assert (nodes_of (graph_obj world_G) ≠ []) as Hne by (vm_compute; discriminate).
  assert (0 ≤ damping_085) as Hd0 by (vm_compute; discriminate).
  assert (damping_085 < 1) as Hd1 by reflexivity.
  assert (length stationary_G = length (sorted (nodes_of (graph_obj world_G))))
    as Hlen by reflexivity.
  split; [exact Hwf|]. split; [exact Hne|]. split; [exact Hd0|].
  split; [exact Hd1|]. split; [exact Hlen|].
  exact (stationary_vector_unique world_G damping_085 stationary_G stationary_G
           Hwf Hne Hd0 Hd1 Hlen Hlen stationary_G_fixed stationary_G_fixed).
Defined.



(** ** Degenerate arguments *)

(** X15. With an iteration bound of zero or less the loop body never runs:
    on a non-empty graph the call returns the initial vector, rank [1/N] for
    every page, and prints nothing. *)
Theorem manual_pagerank_no_iterations (w : World) (d : Qc) (iterations : Z)
    (tol : Qc) :
  let g := graph_obj w in
  graph_wf g → nodes_of g ≠ [] → (iterations ≤ 0)%Z →
  ∃ r, manual_pagerank d iterations tol w = (inr r, w) ∧
    dom r = list_to_set (nodes_of g) ∧
    ∀ n x, r !! n = Some x → x = 1 / Qc_of_nat (length (nodes_of g)).
Proof.
  intros g Hwf Hne Hit.
  destruct (manual_pagerank_run w d iterations tol Hwf Hne)
    as (k & out & Hrun & _ & Hend). fold g in Hrun, Hend.
  assert (k = 0%nat ∧ out = []) as [-> ->]
    by (destruct Hend as [[-> ->]|[? _]]; [split; [lia|done]|lia]).
  replace (mkWorld g (stdout w ++ [])) with w in Hrun
    by (symmetry; apply world_eta).
  eexists. split; [exact Hrun|]. split; [apply ranks_of_dom|].
  intros n x Hx. unfold iterate in Hx. simpl in Hx.
  rewrite initial_vector_replicate in Hx.
  apply ranks_of_uniform in Hx; [|done]. by rewrite engine_nodes_length in Hx.
Qed.

Lemma manual_pagerank_no_iterations_witness :
  graph_wf (graph_obj world_G) ∧ nodes_of (graph_obj world_G) ≠ [] ∧
  (0 ≤ 0)%Z ∧
  ∃ r, manual_pagerank damping_085 0 tol_1e6 world_G = (inr r, world_G) ∧
    dom r = list_to_set (nodes_of (graph_obj world_G)) ∧
    ∀ n x, r !! n = Some x →
      x = 1 / Qc_of_nat (length (nodes_of (graph_obj world_G))).
Proof.
  assert (graph_wf (graph_obj world_G)) as Hwf
    by (apply (bool_decide_unpack _); vm_compute; exact I).
  assert (nodes_of (graph_obj world_G) ≠ []) as Hne by (vm_compute; discriminate).
  assert (0 ≤ 0)%Z as Hit by lia.
  split; [exact Hwf|]. split; [exact Hne|]. split; [exact Hit|].
  exact (manual_pagerank_no_iterations world_G damping_085 0 tol_1e6
           Hwf Hne Hit).
Defined.

Lemma iterate_damping_0 (g : DiGraph) (k : nat) :
  iterate g 0 k =
  replicate (length (engine_nodes g)) (1 / Qc_of_nat (length (engine_nodes g))).
Proof.
  destruct k as [|k].
  - unfold iterate. simpl. apply initial_vector_replicate.
  - rewrite iterate_S.
    rewrite (next_vector_table _ _ _ (engine_matrix_table g))
      by apply iterate_length.
    trans (replicate (length (seq 0 (length (engine_nodes g))))
             (1 / Qc_of_nat (length (engine_nodes g))));
      [|by rewrite length_seq].
    apply const_fmap. intros _ i _.
    rewrite (vsum_fmap_ext _ (λ _, 0)) by (intros; ring).
    rewrite vsum_fmap_const.
    replace (1 - 0) with 1 by ring. ring.
Qed.

(** X16. A damping factor of 0 is accepted and leaves only teleportation:
    every page of a non-empty graph gets rank [1/N], whatever the links. *)
Theorem manual_pagerank_damping_zero (w : World) (iterations : Z) (tol : Qc) :
  let g := graph_obj w in
  graph_wf g → nodes_of g ≠ [] →
  ∃ r w', manual_pagerank 0 iterations tol w = (inr r, w') ∧
    dom r = list_to_set (nodes_of g) ∧
    ∀ n x, r !! n = Some x → x = 1 / Qc_of_nat (length (nodes_of g)).
Proof.
  intros g Hwf Hne.
  destruct (manual_pagerank_run w 0 iterations tol Hwf Hne)
    as (k & out & Hrun & _). fold g in Hrun.
  eexists _, _. split; [exact Hrun|]. split; [apply ranks_of_dom|].
  intros n x Hx. rewrite iterate_damping_0 in Hx.
  apply ranks_of_uniform in Hx; [|done]. by rewrite engine_nodes_length in Hx.
Qed.

Lemma manual_pagerank_damping_zero_witness :
  graph_wf (graph_obj world_G) ∧ nodes_of (graph_obj world_G) ≠ [] ∧
  ∃ r w', manual_pagerank 0 100 tol_1e6 world_G = (inr r, w') ∧
    dom r = list_to_set (nodes_of (graph_obj world_G)) ∧
    ∀ n x, r !! n = Some x →
      x = 1 / Qc_of_nat (length (nodes_of (graph_obj world_G))).
Proof.
  assert (graph_wf (graph_obj world_G)) as Hwf
    by (apply (bool_decide_unpack _); vm_compute; exact I).
  assert (nodes_of (graph_obj world_G) ≠ []) as Hne by (vm_compute; discriminate).
  split; [exact Hwf|]. split; [exact Hne|].
  exact (manual_pagerank_damping_zero world_G 100 tol_1e6 Hwf Hne).
Defined.
